(** * lwrpc: the structural validator and the channel engine

    A shallow embedding of [lib/lwrpc.js] (compiled from the TypeScript
    source of the same name).

    Conventions of the embedding.
    - A JavaScript value is a term of [value]: the data a message carries,
      and [undefined].  An object is the list of its own enumerable
      properties in the order [Object.keys] lists them, and its prototype
      is [Object.prototype].  No value is a function: an own property
      named [hasOwnProperty] hides the method of the prototype, and
      calling it is a [TypeError].
    - Numbers are integers: the code only compares a number with the
      constants 0..6 and increments one counter by one, which is exact on
      doubles below 2^53.
    - Names of functions and the fields of messages have the types the
      TypeScript declarations give them: a name is a string, a nonce a
      number.
    - The tables [remoteFunctions], [published] and [expected] are
      JavaScript objects used as maps.  The finite map of a table holds
      its own properties.  The operator [in] also finds the members of
      [Object.prototype], [table.hasOwnProperty] is the own property of
      that name when the table has one, and an assignment to the name
      [__proto__] makes no own property: it replaces the prototype of the
      table.  What a table inherits from another prototype than
      [Object.prototype] is not represented; the state is then marked
      [beyond], and so is it when the engine sends a [publish] message
      without a name or is handed data where a function definition is
      due.  The keys of [inFlight] are numbers, and [Object.prototype]
      has no such member.
    - A thrown exception is the [Throw] completion.  The text of a
      [TypeError] is chosen by the JavaScript engine; where the code
      sends it, it is the variable [TypeError_toString]. *)

From Stdlib Require Import Decimal DecimalString.
From stdpp Require Import gmap strings list sorting.

Set Warnings "-register-all".

Open Scope string_scope.
Open Scope list_scope.
Open Scope Z_scope.

(** ** JavaScript values *)

Inductive value : Type :=
| VUndefined
| VNull
| VBool (b : bool)
| VNum (n : Z)
| VStr (s : string)
| VArr (elems : list value)
| VObj (props : list (string * value)).

Inductive exn : Type :=
| TypeError
| Thrown (text : string).

Inductive completion (A : Type) : Type :=
| Normal (a : A)
| Throw (e : exn).
Arguments Normal {A} a.
Arguments Throw {A} e.

Definition bind {A B} (c : completion A) (k : A -> completion B) : completion B :=
  match c with
  | Normal a => k a
  | Throw e => Throw e
  end.

Notation "'let*' x ':=' c 'in' k" := (bind c (fun x => k))
  (at level 10, x name, c at level 100, k at level 200).

(** [a && b] where both operands may throw: [b] is evaluated only when
    [a] is [true]. *)
Definition and_then (a b : completion bool) : completion bool :=
  let* x := a in if (x : bool) then b else Normal false.

(** ** The runtime kind tests at the bottom of the file *)

Definition isArray (x : value) : bool :=
  match x with VArr _ => true | _ => false end.
Definition isString (x : value) : bool :=
  match x with VStr _ => true | _ => false end.
Definition isNumber (x : value) : bool :=
  match x with VNum _ => true | _ => false end.
Definition isBool (x : value) : bool :=
  match x with VBool _ => true | _ => false end.
(** [typeof x === 'object' && !isArray(x)]: [typeof null] is ['object']. *)
Definition isObject (x : value) : bool :=
  match x with VNull | VObj _ => true | _ => false end.

(** The elements of an array. *)
Definition elements_of (x : value) : list value :=
  match x with VArr l => l | _ => [] end.

(** [x === null] *)
Definition isNull (x : value) : bool :=
  match x with VNull => true | _ => false end.

(** [x === n] for a numeric literal [n] *)
Definition strict_eq_num (x : value) (n : Z) : bool :=
  match x with VNum m => Z.eqb m n | _ => false end.

(** ** Arrays and strings seen as objects *)

(** The property key of array index [i]. *)
Definition index_key (i : nat) : string :=
  NilZero.string_of_uint (Nat.to_uint i).

Fixpoint indexed {A} (i : nat) (l : list A) : list (string * A) :=
  match l with
  | [] => []
  | x :: l' => (index_key i, x) :: indexed (S i) l'
  end.

Fixpoint chars (s : string) : list value :=
  match s with
  | EmptyString => []
  | String c s' => VStr (String c EmptyString) :: chars s'
  end.

(** [Object.entries(x)]: a [TypeError] on [null] and [undefined], nothing
    for numbers and booleans, the indexed elements of arrays and strings. *)
Definition own_entries (x : value) : completion (list (string * value)) :=
  match x with
  | VUndefined | VNull => Throw TypeError
  | VBool _ | VNum _ => Normal []
  | VStr s => Normal (indexed 0 (chars s))
  | VArr l => Normal (indexed 0 l)
  | VObj props => Normal props
  end.

(** [Object.keys(x)] and [Object.values(x)] *)
Definition Object_keys (x : value) : completion (list string) :=
  let* es := own_entries x in Normal (map fst es).
Definition Object_values (x : value) : completion (list value) :=
  let* es := own_entries x in Normal (map snd es).

Definition has_key {A} (k : string) (props : list (string * A)) : bool :=
  existsb (fun p => String.eqb (fst p) k) props.

(** [x.hasOwnProperty(k)].  The method is looked up on [x]: reading it
    from [null] or [undefined] is a [TypeError]; numbers, booleans,
    strings and arrays find the method of [Object.prototype], and strings
    and arrays also own [length]; an object finds its own property of
    that name first, which is data, and calling data is a [TypeError]. *)
Definition hasOwnProperty (x : value) (k : string) : completion bool :=
  match x with
  | VUndefined | VNull => Throw TypeError
  | VBool _ | VNum _ => Normal false
  | VStr s => Normal (has_key k (indexed 0 (chars s)) || String.eqb k "length")
  | VArr l => Normal (has_key k (indexed 0 l) || String.eqb k "length")
  | VObj props =>
      if has_key "hasOwnProperty" props then Throw TypeError
      else Normal (has_key k props)
  end.

(** [o[k]] continued by [found], or by [missing] when [o] has no own
    property [k]. *)
Definition with_prop {A B} (k : string) (found : A -> B) (missing : B)
  : list (string * A) -> B :=
  fix go props :=
    match props with
    | [] => missing
    | (k', t) :: rest => if String.eqb k' k then found t else go rest
    end.

(** The value of the own property [k], if there is one. *)
Definition lookup_prop {A} (k : string) (props : list (string * A))
  : option A :=
  with_prop k Some None props.

(** [x[k]] for a key [k] that [Object.keys(x)] listed. *)
Definition get_prop (x : value) (k : string) : value :=
  match own_entries x with
  | Normal es => with_prop k (fun v => v) VUndefined es
  | Throw _ => VUndefined
  end.

(** [l.every(f)] and [l.some(f)]: they stop at the first decisive element,
    and an exception of [f] ends them. *)
Definition every {A} (f : A -> completion bool) : list A -> completion bool :=
  fix go l :=
    match l with
    | [] => Normal true
    | x :: l' => and_then (f x) (go l')
    end.

Definition some {A} (f : A -> completion bool) : list A -> completion bool :=
  fix go l :=
    match l with
    | [] => Normal false
    | x :: l' => let* b := f x in if (b : bool) then Normal true else go l'
    end.

(** [value.map((v, i) => [v, type[i]]).every(([v, t]) => f(v, t))] for
    arrays of one length. *)
Definition every_zip (f : value -> value -> completion bool)
  : list value -> list value -> completion bool :=
  fix go ts vs :=
    match ts, vs with
    | t :: ts', v :: vs' => and_then (f v t) (go ts' vs')
    | _, _ => Normal true
    end.

(** ** [validate] *)

Fixpoint validate (value type : value) {struct type} : completion bool :=
  match type with
  | VNum n =>
      (* basic type *)
      Normal (if n =? 0 then isNull value
              else if n =? 1 then isString value
              else if n =? 2 then isNumber value
              else if n =? 3 then isBool value
              else false)
  | VArr ts =>
      (* fixed structure array *)
      match value with
      | VArr vs =>
          if Nat.eqb (length ts) (length vs)
          then every_zip (fun v t => validate v t) ts vs
          else Normal false
      | _ => Normal false
      end
  | VNull =>
      (* isObject(null) holds, and null.hasOwnProperty is a TypeError *)
      Throw TypeError
  | VObj fields =>
      let* tagged := hasOwnProperty (VObj fields) "$c" in
      if (tagged : bool) then
        let c := with_prop "$c" (fun t => t) VUndefined fields in
        let validate_v v :=
          with_prop "$v" (fun t => validate v t) (Normal false) fields in
        let validate_k k :=
          with_prop "$k" (fun t => validate (VStr k) t) (Normal false) fields in
        if isArray value && strict_eq_num c 4 then
          (* variable structure array *)
          every validate_v (elements_of value)
        else if strict_eq_num c 5 && isObject value then
          (* variable structure object *)
          and_then (let* ks := Object_keys value in every validate_k ks)
                   (let* vs := Object_values value in every validate_v vs)
        else if strict_eq_num c 6 then
          (* typed union *)
          with_prop "$t"
            (fun tt =>
               match tt with
               | VUndefined | VNull => Throw TypeError
               | VBool _ | VNum _ => Normal false
               | VStr _ =>
                   (* each alternative is a one-character string, which
                      is no descriptor *)
                   Normal false
               | VArr ts => some (fun t => validate value t) ts
               | VObj ps => some (fun '(_, t) => validate value t) ps
               end)
            (Throw TypeError) fields
        else Normal false
      else
        (* fixed structure object *)
        and_then (every (fun k => hasOwnProperty value k) (map fst fields))
          (and_then
             (let* ks := Object_keys value in
              every (fun k => hasOwnProperty (VObj fields) k) ks)
             (let* ks := Object_keys value in
              every (fun k =>
                       with_prop k (fun t => validate (get_prop value k) t)
                         (Normal false) fields) ks))
  | VUndefined | VBool _ | VStr _ =>
      Normal false
  end.

(** ** The descriptor grammar and the helper [H] *)

Module H.
Definition none : value := VNum 0.
Definition string : value := VNum 1.
Definition number : value := VNum 2.
Definition boolean : value := VNum 3.
Definition array (valueType : value) : value :=
  VObj [("$c", VNum 4); ("$v", valueType)].
Definition object (keyType valueType : value) : value :=
  VObj [("$c", VNum 5); ("$k", keyType); ("$v", valueType)].
Definition union (unionTypes : list value) : value :=
  VObj [("$c", VNum 6); ("$t", VArr unionTypes)].
End H.

(** The key kind of a variable structure object: [1 | 2]. *)
Inductive KeyKind : Type := KString | KNumber.

Inductive Sendable : Type :=
| SNone
| SString
| SNumber
| SBoolean
| SVariableArray (elem : Sendable)
| SVariableObject (keyKind : KeyKind) (elem : Sendable)
| SUnion (alternatives : list Sendable)
| SFixedArray (elems : list Sendable)
| SFixedObject (fields : list (string * Sendable)).

Definition descriptor_of_key (k : KeyKind) : value :=
  match k with KString => H.string | KNumber => H.number end.

(** The JavaScript value that stands for a descriptor. *)
Fixpoint descriptor (T : Sendable) : value :=
  match T with
  | SNone => H.none
  | SString => H.string
  | SNumber => H.number
  | SBoolean => H.boolean
  | SVariableArray elem => H.array (descriptor elem)
  | SVariableObject k elem => H.object (descriptor_of_key k) (descriptor elem)
  | SUnion alts => H.union (map descriptor alts)
  | SFixedArray elems => VArr (map descriptor elems)
  | SFixedObject fields =>
      VObj (map (fun '(k, F) => (k, descriptor F)) fields)
  end.

(** Neither [null] nor [undefined] occurs in the value. *)
Fixpoint no_null (v : value) : bool :=
  match v with
  | VUndefined | VNull => false
  | VBool _ | VNum _ | VStr _ => true
  | VArr l => forallb no_null l
  | VObj props => forallb (fun '(_, x) => no_null x) props
  end.

(** No object in the value has an own property named [hasOwnProperty]. *)
Fixpoint unshadowed (v : value) : bool :=
  match v with
  | VUndefined | VNull | VBool _ | VNum _ | VStr _ => true
  | VArr l => forallb unshadowed l
  | VObj props =>
      negb (has_key "hasOwnProperty" props)
      && forallb (fun '(_, x) => unshadowed x) props
  end.

(** A value without [null], in which no object hides [hasOwnProperty]. *)
Definition plain (v : value) : Prop := no_null v = true ∧ unshadowed v = true.

(** No fixed structure object of the descriptor has a field named
    [hasOwnProperty]. *)
Fixpoint unshadowed_fields (T : Sendable) : bool :=
  match T with
  | SNone | SString | SNumber | SBoolean => true
  | SVariableArray elem => unshadowed_fields elem
  | SVariableObject _ elem => unshadowed_fields elem
  | SUnion alts => forallb unshadowed_fields alts
  | SFixedArray elems => forallb unshadowed_fields elems
  | SFixedObject fields =>
      negb (has_key "hasOwnProperty" fields)
      && forallb (fun '(_, F) => unshadowed_fields F) fields
  end.

(** The call of [validate] ends with a boolean. *)
Definition returns_bool (c : completion bool) : Prop := ∃ b, c = Normal b.

(** ** Objects used as maps *)

(** The methods of [Object.prototype].  Every object that is created
    with [{}] inherits them, and [__proto__], which is an accessor. *)
Definition Object_prototype_methods : list string :=
  ["constructor"; "__defineGetter__"; "__defineSetter__"; "hasOwnProperty";
   "__lookupGetter__"; "__lookupSetter__"; "isPrototypeOf";
   "propertyIsEnumerable"; "toString"; "valueOf"; "toLocaleString"].

Definition is_method (name : string) : bool :=
  existsb (String.eqb name) Object_prototype_methods.

(** [name in {}] *)
Definition inherited (name : string) : bool :=
  is_method name || String.eqb name "__proto__".

(** [Object.prototype[name].name] for a method: the constructor is the
    function [Object]. *)
Definition method_name (name : string) : string :=
  if String.eqb name "constructor" then "Object" else name.

(** ** The channel engine: messages and state *)

(** A deferred result handed to the caller of [channel.f(...)] is named by
    a label the caller chooses. *)
Definition CallId : Type := nat.

(** A deferred result is completed with a value, or fails with a message
    ([fail(message)]) or with an exception that left an [async]
    function. *)
Inductive Outcome : Type :=
| Resolved (v : value)
| Failed (reason : string)
| Raised (ex : exn).

(** What a local function throws, as the [catch] of the [call] case sees
    it: [e.toString()] gives a text, or is itself a [TypeError], as it is
    for [null] and [undefined]. *)
Inductive Exception : Type :=
| Printable (text : string)
| Unprintable.

(** [LocalFunctionDefinition] without [fn], which belongs to the
    environment: the engine only starts it and is told of its completion. *)
Record LocalFunctionDefinition : Type := {
  lfd_name : string;
  lfd_args : list value;
  lfd_returns : value;
}.

Inductive Message : Type :=
| MPublish (name : string) (args : value) (returns : value)
| MCall (nonce : Z) (name : string) (args : value)
| MResult (nonce : Z) (v : value)
| MError (nonce : Z) (message : string)
| MExpect (name : string).

(** [InFlightRPC]: [resolve] and [fail] settle the deferred result
    [rpc_call]; it is [None] for a deferred result that nobody holds. *)
Record InFlightRPC : Type := {
  rpc_name : string;
  rpc_returns : value;
  rpc_call : option CallId;
}.

(** What [remoteFunctions[name]] holds: the closure made when a [publish]
    message is received, or the one [close] puts in its place. *)
Inductive RemoteFunction : Type :=
| Live (name : string) (returns : value)
| Inert.

(** A [resolve] stored in [expected[prop]]: calling it resumes the wrapper
    of the call [w_call], made as [channel[w_prop](...w_args)]. *)
Record Waiter : Type := {
  w_call : CallId;
  w_prop : string;
  w_args : list value;
}.

(** A call of a local [fn]. *)
Record Invocation : Type := {
  inv_name : string;
  inv_nonce : Z;
  inv_args : value;
}.

(** The variables of one [createChannel] closure, then what the engine
    did to its environment: the arguments of [send] (oldest first), the
    deferred results settled, the local functions started, those still
    running, and the resumed wrappers not yet run.  [beyond] marks a state
    that the embedding does not represent. *)
Record Engine : Type := {
  open : bool;
  counter : Z;
  remoteFunctions : gmap string RemoteFunction;
  inFlight : gmap Z InFlightRPC;
  published : gmap string LocalFunctionDefinition;
  expected : gmap string (list Waiter);
  wire : list Message;
  settled : list (CallId * Outcome);
  invoked : list Invocation;
  running : list Z;
  microtasks : list Waiter;
  beyond : bool;
}.

Definition set_open (b : bool) (e : Engine) : Engine :=
  {| open := b; counter := counter e;
     remoteFunctions := remoteFunctions e; inFlight := inFlight e;
     published := published e; expected := expected e; wire := wire e;
     settled := settled e; invoked := invoked e; running := running e;
     microtasks := microtasks e; beyond := beyond e |}.
Definition set_counter (c : Z) (e : Engine) : Engine :=
  {| open := open e; counter := c;
     remoteFunctions := remoteFunctions e; inFlight := inFlight e;
     published := published e; expected := expected e; wire := wire e;
     settled := settled e; invoked := invoked e; running := running e;
     microtasks := microtasks e; beyond := beyond e |}.
Definition set_remoteFunctions (m : gmap string RemoteFunction) (e : Engine)
  : Engine :=
  {| open := open e; counter := counter e;
     remoteFunctions := m; inFlight := inFlight e;
     published := published e; expected := expected e; wire := wire e;
     settled := settled e; invoked := invoked e; running := running e;
     microtasks := microtasks e; beyond := beyond e |}.
Definition set_inFlight (m : gmap Z InFlightRPC) (e : Engine) : Engine :=
  {| open := open e; counter := counter e;
     remoteFunctions := remoteFunctions e; inFlight := m;
     published := published e; expected := expected e; wire := wire e;
     settled := settled e; invoked := invoked e; running := running e;
     microtasks := microtasks e; beyond := beyond e |}.
Definition set_published (m : gmap string LocalFunctionDefinition)
  (e : Engine) : Engine :=
  {| open := open e; counter := counter e;
     remoteFunctions := remoteFunctions e; inFlight := inFlight e;
     published := m; expected := expected e; wire := wire e;
     settled := settled e; invoked := invoked e; running := running e;
     microtasks := microtasks e; beyond := beyond e |}.
Definition set_expected (m : gmap string (list Waiter)) (e : Engine)
  : Engine :=
  {| open := open e; counter := counter e;
     remoteFunctions := remoteFunctions e; inFlight := inFlight e;
     published := published e; expected := m; wire := wire e;
     settled := settled e; invoked := invoked e; running := running e;
     microtasks := microtasks e; beyond := beyond e |}.
Definition set_running (l : list Z) (e : Engine) : Engine :=
  {| open := open e; counter := counter e;
     remoteFunctions := remoteFunctions e; inFlight := inFlight e;
     published := published e; expected := expected e; wire := wire e;
     settled := settled e; invoked := invoked e; running := l;
     microtasks := microtasks e; beyond := beyond e |}.
Definition set_microtasks (l : list Waiter) (e : Engine) : Engine :=
  {| open := open e; counter := counter e;
     remoteFunctions := remoteFunctions e; inFlight := inFlight e;
     published := published e; expected := expected e; wire := wire e;
     settled := settled e; invoked := invoked e; running := running e;
     microtasks := l; beyond := beyond e |}.

(** The state no longer stands for a state of the code. *)
Definition leave (e : Engine) : Engine :=
  {| open := open e; counter := counter e;
     remoteFunctions := remoteFunctions e; inFlight := inFlight e;
     published := published e; expected := expected e; wire := wire e;
     settled := settled e; invoked := invoked e; running := running e;
     microtasks := microtasks e; beyond := true |}.

(** [send(m)] *)
Definition send (m : Message) (e : Engine) : Engine :=
  {| open := open e; counter := counter e;
     remoteFunctions := remoteFunctions e; inFlight := inFlight e;
     published := published e; expected := expected e;
     wire := wire e ++ [m];
     settled := settled e; invoked := invoked e; running := running e;
     microtasks := microtasks e; beyond := beyond e |}.

(** [resolve(v)], [fail(reason)] or the exception of the wrapper, on the
    deferred result [id] *)
Definition settle (id : CallId) (o : Outcome) (e : Engine) : Engine :=
  {| open := open e; counter := counter e;
     remoteFunctions := remoteFunctions e; inFlight := inFlight e;
     published := published e; expected := expected e; wire := wire e;
     settled := settled e ++ [(id, o)];
     invoked := invoked e; running := running e;
     microtasks := microtasks e; beyond := beyond e |}.

(** The same on a deferred result that may be held by nobody. *)
Definition settle_held (p : option CallId) (o : Outcome) (e : Engine)
  : Engine :=
  match p with
  | Some id => settle id o e
  | None => e
  end.

(** [fn(...args)] is started for the incoming call [nonce]. *)
Definition invoke (i : Invocation) (e : Engine) : Engine :=
  {| open := open e; counter := counter e;
     remoteFunctions := remoteFunctions e; inFlight := inFlight e;
     published := published e; expected := expected e; wire := wire e;
     settled := settled e;
     invoked := invoked e ++ [i]; running := running e ++ [inv_nonce i];
     microtasks := microtasks e; beyond := beyond e |}.

(** The state [createChannel] starts from. *)
Definition fresh : Engine :=
  {| open := true; counter := 1;
     remoteFunctions := ∅; inFlight := ∅; published := ∅; expected := ∅;
     wire := []; settled := []; invoked := []; running := [];
     microtasks := []; beyond := false |}.

(** What [get] of the proxy returns for [prop]: [publishFunction], the
    wrapper that waits for the publication of [prop], the remote function
    stored under [prop], or the member of [Object.prototype] of that
    name. *)
Inductive Capability : Type :=
| CapPublish
| CapExpect (prop : string)
| CapRemote (rf : RemoteFunction)
| CapInherited (prop : string).

(** An execution is a sequence of events: a call of the application on
    the proxy ([channel.publish(lfd)], [channel[prop](...args)]) or of a
    function the proxy returned earlier, a message or the close
    notification from the transport, the completion of a local function,
    or the run of a resumed wrapper. *)
Inductive Event : Type :=
| EvPublish (lfd : LocalFunctionDefinition)
| EvCall (id : CallId) (prop : string) (args : list value)
| EvInvoke (id : CallId) (f : Capability) (args : list value)
| EvReceive (m : Message)
| EvClose
| EvReturned (nonce : Z) (result : value)
| EvThrew (nonce : Z) (thrown : Exception)
| EvTick.

(** A rendering of the exceptions of [validate] for the examples: that of
    a JavaScript engine that gives no detail. *)
Definition terse (value type : value) : string := "TypeError".

(** ** The channel engine: operations *)

Section Channel.

(** [e.toString()] for the [TypeError] [e] that [validate(value, type)]
    throws.  The text names the operation that failed and the JavaScript
    engine words it; the code sends it on as it is. *)
Variable TypeError_toString : value -> value -> string.

(** [e.toString()] for an exception of [validate(value, type)] *)
Definition exn_toString (value type : value) (ex : exn) : string :=
  match ex with
  | TypeError => TypeError_toString value type
  | Thrown text => text
  end.

Definition sendFunction (lfd : LocalFunctionDefinition) (e : Engine) : Engine :=
  send (MPublish (lfd_name lfd) (VArr (lfd_args lfd)) (lfd_returns lfd)) e.

(** [published.hasOwnProperty] is the definition published under that
    name, if there is one, and calling a definition is a [TypeError].
    [published['__proto__'] = lfd] replaces the prototype of the table,
    which then inherits the fields of [lfd]. *)
Definition publishFunction (lfd : LocalFunctionDefinition) (e : Engine)
  : completion Engine :=
  match published e !! "hasOwnProperty" with
  | Some _ => Throw TypeError
  | None =>
      match published e !! lfd_name lfd with
      | Some _ =>
          Throw (Thrown ("Error: channel already has a published function called "
                         +:+ lfd_name lfd))
      | None =>
          (* send the function definition to the other side *)
          if String.eqb (lfd_name lfd) "__proto__"
          then Normal (leave (sendFunction lfd e))
          else Normal (sendFunction lfd
                         (set_published (<[lfd_name lfd := lfd]> (published e)) e))
      end
  end.

(** The body of [remoteFunctions[name]], run for the deferred result [p]:
    the closure of a received [publish], or the one [close] installs, whose
    result is [undefined]. *)
Definition invoke_remote (rf : RemoteFunction) (p : option CallId)
  (callArgs : list value) (e : Engine) : Engine :=
  match rf with
  | Live name returns =>
      let nonce := counter e in
      let e1 := set_counter (nonce + 1) e in
      let e2 := send (MCall nonce name (VArr callArgs)) e1 in
      set_inFlight
        (<[nonce := {| rpc_name := name; rpc_returns := returns;
                       rpc_call := p |}]> (inFlight e2)) e2
  | Inert => settle_held p (Resolved VUndefined) e
  end.

(** The handler given to [registerReceive], up to its first [await].  An
    exception that leaves the handler is not seen by the engine: the state
    is what the handler had made of it. *)
Definition receive (m : Message) (e : Engine) : Engine :=
  match m with
  | MCall nonce name args =>
      match published e !! "hasOwnProperty" with
      | Some _ =>
          (* [published.hasOwnProperty(name)] is a TypeError, outside the
             [try] *)
          e
      | None =>
          match published e !! name with
          | None => send (MError nonce ("Unpublished Function: " +:+ name)) e
          | Some lfd =>
              match validate args (VArr (lfd_args lfd)) with
              | Normal true =>
                  invoke {| inv_name := name; inv_nonce := nonce;
                            inv_args := args |} e
              | Normal false => send (MError nonce "Invalid Arguments") e
              | Throw ex =>
                  send (MError nonce
                          ("Exception: "
                           +:+ exn_toString args (VArr (lfd_args lfd)) ex)) e
              end
          end
      end
  | MPublish name _ returns =>
      match remoteFunctions e !! "hasOwnProperty" with
      | Some rf =>
          (* [remoteFunctions.hasOwnProperty] is the remote function of
             that name: it is called with [name], and the promise it
             returns counts as [true] *)
          invoke_remote rf None [VStr name] e
      | None =>
          match remoteFunctions e !! name with
          | Some _ => e
          | None =>
              if String.eqb name "__proto__" then
                (* the closure becomes the prototype of the table *)
                leave e
              else
                let e1 :=
                  set_remoteFunctions
                    (<[name := Live name returns]> (remoteFunctions e)) e in
                match expected e1 !! name with
                | Some resolves => set_microtasks (microtasks e1 ++ resolves) e1
                | None =>
                    (* for an inherited [name], [expected[name].map] is a
                       TypeError, after the assignment *)
                    e1
                end
          end
      end
  | MExpect name =>
      match published e !! name with
      | Some lfd => sendFunction lfd e
      | None =>
          if is_method name then
            (* [published[name]] is the method of [Object.prototype],
               which has a [name] and neither [args] nor [returns] *)
            send (MPublish (method_name name) VUndefined VUndefined) e
          else if String.eqb name "__proto__" then
            (* [published['__proto__']] is [Object.prototype], which has
               no [name] *)
            leave e
          else e
      end
  | MError nonce message =>
      match inFlight e !! nonce with
      | Some rpc =>
          let e1 := settle_held (rpc_call rpc) (Failed message) e in
          set_inFlight (delete nonce (inFlight e1)) e1
      | None => e
      end
  | MResult nonce v =>
      match inFlight e !! nonce with
      | Some rpc =>
          match validate v (rpc_returns rpc) with
          | Normal false =>
              let e1 :=
                settle_held (rpc_call rpc)
                  (Failed ("invalid return value from rpc " +:+ rpc_name rpc))
                  e in
              set_inFlight (delete nonce (inFlight e1)) e1
          | Normal true =>
              let e1 := settle_held (rpc_call rpc) (Resolved v) e in
              set_inFlight (delete nonce (inFlight e1)) e1
          | Throw _ =>
              (* the exception leaves the handler before [delete] *)
              e
          end
      | None => e
      end
  end.

(** One running call of a local function fewer. *)
Fixpoint remove_first (n : Z) (l : list Z) : list Z :=
  match l with
  | [] => []
  | x :: l' => if Z.eqb x n then l' else x :: remove_first n l'
  end.

(** [if (result === undefined) result = null] *)
Definition null_if_undefined (result : value) : value :=
  match result with VUndefined => VNull | r => r end.

(** The rest of the [call] case once [fn] has completed: with a result,
    or with an exception, which the [catch] reports if it can print it. *)
Definition fn_returned (nonce : Z) (result : value) (e : Engine) : Engine :=
  if bool_decide (nonce ∈ running e) then
    let e1 := set_running (remove_first nonce (running e)) e in
    if open e1 then send (MResult nonce (null_if_undefined result)) e1 else e1
  else e.

Definition fn_threw (nonce : Z) (thrown : Exception) (e : Engine) : Engine :=
  if bool_decide (nonce ∈ running e) then
    let e1 := set_running (remove_first nonce (running e)) e in
    match thrown with
    | Printable text => send (MError nonce ("Exception: " +:+ text)) e1
    | Unprintable => e1
    end
  else e.

(** [Object.keys(inFlight)]: integer keys come in ascending order. *)
Definition inFlight_keys (e : Engine) : list Z :=
  merge_sort Z.le (map fst (map_to_list (inFlight e))).

(** One turn of the first loop of the close handler. *)
Definition fail_closed (e : Engine) (k : Z) : Engine :=
  match inFlight e !! k with
  | Some rpc =>
      let e1 := settle_held (rpc_call rpc) (Failed "Connection Closed") e in
      set_inFlight (delete k (inFlight e1)) e1
  | None => e
  end.

(** The handler given to [registerClose]. *)
Definition close (e : Engine) : Engine :=
  let e1 := set_open false e in
  let e2 := foldl fail_closed e1 (inFlight_keys e1) in
  set_remoteFunctions ((fun _ => Inert) <$> remoteFunctions e2) e2.

(** [get] of the proxy.  [prop in remoteFunctions] holds for the own
    properties of the table and for what it inherits. *)
Definition get (e : Engine) (prop : string) : Capability :=
  if String.eqb prop "publish" then CapPublish
  else match remoteFunctions e !! prop with
       | Some rf => CapRemote rf
       | None => if inherited prop then CapInherited prop else CapExpect prop
       end.

(** The call [f(...args)] of a function the proxy returned, for the
    deferred result [id], up to its first [await].  The wrapper for an
    unknown name stores its [resolve] and waits; when [prop] is inherited
    by [expected], [expected[prop].push] is a TypeError, which the wrapper
    fails with.  A member of [Object.prototype] never reaches the engine.
    [publishFunction] takes a function definition: its call is the event
    [EvPublish], and its call with data is not represented. *)
Definition call_function (f : Capability) (id : CallId) (args : list value)
  (e : Engine) : Engine :=
  match f with
  | CapPublish => leave e
  | CapExpect prop =>
      let w := {| w_call := id; w_prop := prop; w_args := args |} in
      match expected e !! prop with
      | Some resolves => set_expected (<[prop := resolves ++ [w]]> (expected e)) e
      | None =>
          if inherited prop then settle id (Raised TypeError) e
          else set_expected (<[prop := [w]]> (expected e)) e
      end
  | CapRemote rf => invoke_remote rf (Some id) args e
  | CapInherited _ => e
  end.

(** [channel[prop](...args)] *)
Definition call (id : CallId) (prop : string) (args : list value)
  (e : Engine) : Engine :=
  call_function (get e prop) id args e.

(** The wrapper of an unknown name after its [resolve] was called: the
    lines below [await new Promise(...)].  [remoteFunctions[prop]] is read
    now: calling [undefined] is a TypeError, and the call of a member of
    [Object.prototype] is not represented. *)
Definition resume (w : Waiter) (e : Engine) : Engine :=
  let e1 := send (MExpect (w_prop w)) e in
  match remoteFunctions e1 !! w_prop w with
  | Some rf => invoke_remote rf (Some (w_call w)) (w_args w) e1
  | None =>
      if inherited (w_prop w) then leave e1
      else settle (w_call w) (Raised TypeError) e1
  end.

(** Run the oldest resumed wrapper. *)
Definition tick (e : Engine) : Engine :=
  match microtasks e with
  | [] => e
  | w :: rest => resume w (set_microtasks rest e)
  end.

(** ** Executions

    The engine runs in one thread.  Events may come in any order;
    JavaScript runs a resumed wrapper before the next message of a
    transport that delivers each message in a task of its own.  The
    application may call any function the proxy has returned so far;
    [EvInvoke] allows every function the proxy can return. *)

Definition step (e : Engine) (ev : Event) : Engine :=
  match ev with
  | EvPublish lfd =>
      match publishFunction lfd e with
      | Normal e' => e'
      | Throw _ => e
      end
  | EvCall id prop args => call id prop args e
  | EvInvoke id f args => call_function f id args e
  | EvReceive m => receive m e
  | EvClose => close e
  | EvReturned nonce result => fn_returned nonce result e
  | EvThrew nonce thrown => fn_threw nonce thrown e
  | EvTick => tick e
  end.

Definition run (e : Engine) (evs : list Event) : Engine := foldl step e evs.

(** [createChannel(params)]: the initial publications are published in
    turn, and the first that throws ends the call. *)
Fixpoint publish_all (publish : list LocalFunctionDefinition) (e : Engine)
  : completion Engine :=
  match publish with
  | [] => Normal e
  | rfd :: rest => let* e1 := publishFunction rfd e in publish_all rest e1
  end.

Definition createChannel (publish : list LocalFunctionDefinition)
  : completion Engine :=
  publish_all publish fresh.

(** ** Notions used in the statements *)

(** The nonces of the [call] messages among the arguments of [send]. *)
Definition call_nonces (ms : list Message) : list Z :=
  omap (fun m => match m with MCall n _ _ => Some n | _ => None end) ms.

(** The entry that settling the deferred result [p] adds to the log. *)
Definition settlement (p : option CallId) (o : Outcome)
  : list (CallId * Outcome) :=
  match p with
  | Some id => [(id, o)]
  | None => []
  end.

(** What the close handler does to the deferred result of the record
    under the key [k]. *)
Definition closed_failure (tbl : gmap Z InFlightRPC) (k : Z)
  : list (CallId * Outcome) :=
  match tbl !! k with
  | Some rpc => settlement (rpc_call rpc) (Failed "Connection Closed")
  | None => []
  end.

(** The handler of incoming messages is given a [publish] message. *)
Definition is_inbound_publish (ev : Event) : bool :=
  match ev with EvReceive (MPublish _ _ _) => true | _ => false end.

(** An event that cannot put a call in flight on a channel whose remote
    functions are all inert: it neither installs a remote function nor
    calls one that the proxy returned while it was working. *)
Definition keeps_quiet (ev : Event) : bool :=
  match ev with
  | EvReceive (MPublish _ _ _) => false
  | EvInvoke _ (CapRemote (Live _ _)) _ => false
  | _ => true
  end.

(** No call is in flight and every remote function is the one the close
    handler installs. *)
Definition quiescent (e : Engine) : Prop :=
  inFlight e = ∅
  ∧ ∀ name rf, remoteFunctions e !! name = Some rf -> rf = Inert.

(** A step that draws no nonce: the counter and the [call] messages sent
    are as before, and in-flight records are at most removed. *)
Definition no_draw (e e' : Engine) : Prop :=
  counter e' = counter e
  ∧ call_nonces (wire e') = call_nonces (wire e)
  ∧ ∀ n, inFlight e' !! n = inFlight e !! n ∨ inFlight e' !! n = None.

(** A step that makes one outbound call: it takes the value of the
    counter as nonce, sends the [call] message with it and files the
    record under it. *)
Definition draws (e e' : Engine) : Prop :=
  counter e' = counter e + 1
  ∧ call_nonces (wire e') = call_nonces (wire e) ++ [counter e]
  ∧ ∃ rpc, inFlight e' = <[counter e := rpc]> (inFlight e).

(** The nonces sent so far are 1, 2, ..., [counter - 1], and the in-flight
    records are filed under some of them. *)
Definition nonce_invariant (e : Engine) : Prop :=
  1 ≤ counter e
  ∧ call_nonces (wire e) = seqZ 1 (counter e - 1)
  ∧ ∀ n, is_Some (inFlight e !! n) -> 1 ≤ n < counter e.

(** Waiters are queued under their own name; a resumed wrapper and an
    [expect] message on the wire both have their remote function already
    installed. *)
Definition expect_invariant (e : Engine) : Prop :=
  (∀ name ws w, expected e !! name = Some ws -> w ∈ ws -> w_prop w = name)
  ∧ (∀ w, w ∈ microtasks e -> is_Some (remoteFunctions e !! w_prop w))
  ∧ (∀ name, MExpect name ∈ wire e -> is_Some (remoteFunctions e !! name)).

(** A [result] or an [error] message. *)
Definition is_completion (m : Message) : bool :=
  match m with MResult _ _ | MError _ _ => true | _ => false end.

Definition is_expect (m : Message) : bool :=
  match m with MExpect _ => true | _ => false end.

(** The message [sendFunction] sends for a definition. *)
Definition announcement (lfd : LocalFunctionDefinition) : Message :=
  MPublish (lfd_name lfd) (VArr (lfd_args lfd)) (lfd_returns lfd).

(** Every local function started was asked for by a received [call]
    message with arguments valid for its published definition; every
    function running was started; every [result] sent answers a function
    started. *)
Definition invocations_accounted (e : Engine) (evs : list Event) : Prop :=
  (∀ i, i ∈ invoked e ->
     EvReceive (MCall (inv_nonce i) (inv_name i) (inv_args i)) ∈ evs
     ∧ ∃ lfd, published e !! inv_name i = Some lfd
              ∧ validate (inv_args i) (VArr (lfd_args lfd)) = Normal true)
  ∧ (∀ n, n ∈ running e -> ∃ i, i ∈ invoked e ∧ inv_nonce i = n)
  ∧ (∀ n v, MResult n v ∈ wire e -> ∃ i, i ∈ invoked e ∧ inv_nonce i = n).



(** A name that can be published like any other: it is neither
    [__proto__] nor [hasOwnProperty]. *)
Definition ordinary_name (name : string) : Prop :=
  name ≠ "__proto__" ∧ name ≠ "hasOwnProperty".

(** Where the calls made through the channel are: the deferred results
    settled, the calls in flight, the resumed wrappers, and the wrappers
    waiting for a name that has no remote function yet. *)
Definition in_flight_calls (e : Engine) : list CallId :=
  omap (fun p => rpc_call (snd p)) (map_to_list (inFlight e)).

Definition waiting_of (rfs : gmap string RemoteFunction)
  (p : string * list Waiter) : list CallId :=
  match rfs !! fst p with
  | None => w_call <$> snd p
  | Some _ => []
  end.

Definition waiting_calls (e : Engine) : list CallId :=
  concat (waiting_of (remoteFunctions e) <$> map_to_list (expected e)).

Definition calls_held (e : Engine) : list CallId :=
  (fst <$> settled e) ++ in_flight_calls e ++ (w_call <$> microtasks e)
    ++ waiting_calls e.

(** The deferred result of [channel[prop](...args)] when it is a remote
    call: the proxy returned a remote function or the wrapper of an
    unknown name, not [publishFunction] or a member of
    [Object.prototype]. *)
Definition call_made (e : Engine) (ev : Event) : option CallId :=
  match ev with
  | EvCall id prop _ =>
      match get e prop with
      | CapRemote _ | CapExpect _ => Some id
      | CapPublish | CapInherited _ => None
      end
  | _ => None
  end.

(** The remote calls made in an execution that starts in [e]. *)
Fixpoint calls_made (e : Engine) (evs : list Event) : list CallId :=
  match evs with
  | [] => []
  | ev :: rest => option_list (call_made e ev) ++ calls_made (step e ev) rest
  end.

(** The application calls what the proxy returns at once, and keeps no
    function of the proxy for later. *)
Definition is_direct (ev : Event) : bool :=
  match ev with EvInvoke _ _ _ => false | _ => true end.

(** ** Sample definitions and states, after the test suite and the README *)

Definition addDefinition : LocalFunctionDefinition :=
  {| lfd_name := "add"; lfd_args := [H.number; H.number];
     lfd_returns := H.number |}.

Definition noargs : LocalFunctionDefinition :=
  {| lfd_name := "noargs"; lfd_args := []; lfd_returns := H.none |}.

Definition add_published : Message :=
  MPublish "add" (VArr [H.number; H.number]) H.number.

Definition pending_add : Engine :=
  run fresh [EvReceive add_published; EvCall 7%nat "add" [VNum 3; VNum 5]].

Definition add_waiter : Waiter :=
  {| w_call := 7%nat; w_prop := "add"; w_args := [VNum 1; VNum 9] |}.

(** The test [can wait for publication]: [alpha.add(1, 9)] before the peer
    has published [add]. *)
Definition waiting_add : Engine :=
  call 7%nat "add" [VNum 1; VNum 9] fresh.

Definition sub_published : Message :=
  MPublish "sub" (VArr [H.number; H.number]) H.number.

(** A channel closed with the call [add(3, 5)] in flight, to which the
    peer then publishes [sub]; the call [sub(3, 5)] made afterwards. *)
Definition closed_then_called : Engine :=
  run pending_add [EvClose; EvReceive sub_published;
                   EvCall 8%nat "sub" [VNum 3; VNum 5]].

(** The test [can differentiate multiple results]: four calls of [add]
    in flight at once. *)
Definition four_pending : Engine :=
  run fresh [EvReceive add_published;
             EvCall 1%nat "add" [VNum 1; VNum 2];
             EvCall 2%nat "add" [VNum 3; VNum 4];
             EvCall 3%nat "add" [VNum 5; VNum 6];
             EvCall 4%nat "add" [VNum 7; VNum 8]].


Definition published_noargs : Engine := run fresh [EvPublish noargs].

(** The fixed structure object of the README, a function that takes one
    and a function that returns one. *)
Definition person : value := VObj [("name", H.string); ("age", H.number)].

Definition greet : LocalFunctionDefinition :=
  {| lfd_name := "greet"; lfd_args := [person]; lfd_returns := H.string |}.

Definition lookup_published : Message :=
  MPublish "lookup" (VArr [H.string]) person.

(** The call [lookup('ann')] in flight. *)
Definition pending_lookup : Engine :=
  run fresh [EvReceive lookup_published; EvCall 5%nat "lookup" [VStr "ann"]].

(** A function that is named as a method of [Object.prototype]. *)
Definition hasOwnPropertyDefinition : LocalFunctionDefinition :=
  {| lfd_name := "hasOwnProperty"; lfd_args := [H.string];
     lfd_returns := H.boolean |}.

(** * Properties of [validate] *)

Section Validator.

(** The sample calls of the specification. *)
Lemma validate_samples :
  validate VNull H.none = Normal true
  ∧ validate (VStr "x") H.string = Normal true
  ∧ validate (VNum 1) H.string = Normal false
  ∧ validate (VArr [VNum 1; VNum 2; VNum 3]) (VArr [H.number; H.number])
    = Normal false
  ∧ validate (VArr [VNum 1; VNum 2]) (VArr [H.number; H.number])
    = Normal true
  ∧ validate (VObj [("a", VNum 1)])
      (VObj [("a", H.number); ("b", H.number)]) = Normal false
  ∧ validate (VObj [("a", VNum 1); ("b", VNum 2); ("c", VNum 3)])
      (VObj [("a", H.number); ("b", H.number)]) = Normal false
  ∧ validate (VBool true) (H.union [H.boolean; H.array H.number])
    = Normal true.
Proof. repeat split; reflexivity. Qed.

(** An own property named [hasOwnProperty] hides the method, in the value
    and in the descriptor. *)
Lemma validate_shadowed_samples :
  validate (VObj [("a", VNum 1); ("hasOwnProperty", VNum 2)])
    (VObj [("a", H.number)]) = Throw TypeError
  ∧ validate (VNum 5) (VObj [("hasOwnProperty", H.number)]) = Throw TypeError
  ∧ validate (VObj [("hasOwnProperty", VNum 2)]) (VObj []) = Normal false.
Proof. repeat split; reflexivity. Qed.

(** A string never validates against the descriptor [Number]. *)
Lemma validate_key_number (k : string) :
  validate (VStr k) H.number = Normal false.
Proof. reflexivity. Qed.

(** The variable structure object branch, for an object value. *)
Lemma validate_variable_object (props : list (string * value))
    (keyType valueType : value) :
  validate (VObj props) (H.object keyType valueType) =
    and_then (every (fun k => validate (VStr k) keyType) (map fst props))
             (every (fun v => validate v valueType) (map snd props)).
Proof. reflexivity. Qed.

(** C10.  A variable structure object descriptor whose key kind is
    [Number] rejects every object that has at least one key, whatever its
    element descriptor: each key is handed to the key check as a string,
    and a string is not a number.  Such a descriptor returns [true] for
    the empty object and for no other value. *)
Theorem number_keyed_object_accepts_only_empty
    (valueType : value) (props : list (string * value)) :
  props ≠ [] ->
  validate (VObj props) (H.object H.number valueType) = Normal false
  ∧ validate (VObj []) (H.object H.number valueType) = Normal true
  ∧ ∀ v, validate v (H.object H.number valueType) = Normal true -> v = VObj [].
Proof.
  intros Hne. split; [|split].
  - rewrite validate_variable_object.
    destruct props as [|[k v] props]; [done|]. reflexivity.
  - reflexivity.
  - intros v Hv. destruct v as [| | | | |l|ps]; try discriminate.
    destruct ps as [|[k v] ps]; [done|].
    rewrite validate_variable_object in Hv. discriminate.
Qed.

Lemma number_keyed_object_accepts_only_empty_witness :
  validate (VObj [("a", VNum 1)]) (H.object H.number H.number) = Normal false.
Proof.
  apply (number_keyed_object_accepts_only_empty H.number [("a", VNum 1)]).
  discriminate.
Defined.

(** The method of [Object.prototype], on an object that does not hide
    it. *)
Lemma hasOwnProperty_unshadowed (props : list (string * value)) (k : string) :
  has_key "hasOwnProperty" props = false ->
  hasOwnProperty (VObj props) k = Normal (has_key k props).
Proof. intros Hs. cbn [hasOwnProperty]. by rewrite Hs. Qed.

(** A descriptor that has an own property [hasOwnProperty] raises a
    [TypeError] for every value. *)
Lemma validate_shadowed_descriptor (v : value)
    (fields : list (string * value)) :
  has_key "hasOwnProperty" fields = true ->
  validate v (VObj fields) = Throw TypeError.
Proof. intros Hs. cbn [validate hasOwnProperty]. by rewrite Hs. Qed.

(** The fixed structure object branch is taken for every object
    descriptor without the properties [$c] and [hasOwnProperty]. *)
Lemma validate_fixed_object (v : value) (fields : list (string * value)) :
  has_key "hasOwnProperty" fields = false ->
  has_key "$c" fields = false ->
  validate v (VObj fields) =
    and_then (every (fun k => hasOwnProperty v k) (map fst fields))
      (and_then
         (let* ks := Object_keys v in
          every (fun k => Normal (has_key k fields)) ks)
         (let* ks := Object_keys v in
          every (fun k =>
                   with_prop k (fun t => validate (get_prop v k) t)
                     (Normal false) fields) ks)).
Proof.
  intros Hs Hc. cbn [validate hasOwnProperty]. rewrite Hs, Hc. reflexivity.
Qed.

Lemma has_key_descriptor_fields (k : string)
    (fields : list (string * Sendable)) :
  has_key k (map (fun '(k, F) => (k, descriptor F)) fields) = has_key k fields.
Proof.
  unfold has_key. induction fields as [|[k' F] fields IH]; simpl; [done|].
  by rewrite IH.
Qed.

(** C3.  [validate] is not total: against a fixed structure object
    descriptor the value [null] raises a [TypeError], where
    [null.hasOwnProperty] or [Object.keys(null)] is evaluated with no test
    of the kind of the value before it; it does so also against a variable
    structure object descriptor, whose guard [isObject(value)] lets [null]
    through.  Among the malformed descriptors, [null] and a union without
    its property [$t] raise it for every value. *)
Theorem validate_null_throws (fields : list (string * Sendable)) :
  has_key "$c" fields = false ->
  validate VNull (descriptor (SFixedObject fields)) = Throw TypeError
  ∧ (∀ k elem,
       validate VNull (descriptor (SVariableObject k elem)) = Throw TypeError)
  ∧ (∀ v, validate v VNull = Throw TypeError)
  ∧ (∀ v, validate v (VObj [("$c", VNum 6)]) = Throw TypeError).
Proof.
  intros Hc. split; [|split; [|split]].
  - cbn [descriptor].
    destruct (has_key "hasOwnProperty"
                (map (fun '(k, F) => (k, descriptor F)) fields)) eqn:Hs.
    + by apply validate_shadowed_descriptor.
    + rewrite validate_fixed_object; [|done|].
      * destruct fields as [|[k F] fields]; reflexivity.
      * by rewrite has_key_descriptor_fields.
  - intros k elem. reflexivity.
  - intros v. reflexivity.
  - intros v. destruct v; reflexivity.
Qed.

Lemma validate_null_throws_witness :
  validate VNull (descriptor (SFixedObject [("a", SNumber)])) = Throw TypeError.
Proof.
  apply (validate_null_throws [("a", SNumber)]). reflexivity.
Defined.

Lemma and_then_true (a b : completion bool) :
  and_then a b = Normal true <-> a = Normal true ∧ b = Normal true.
Proof.
  unfold and_then. destruct a as [[]|]; simpl; split;
    try (intros [? ?]); try done.
Qed.

Lemma every_true {A} (f : A -> completion bool) (l : list A) :
  every f l = Normal true <-> ∀ x, x ∈ l -> f x = Normal true.
Proof.
  induction l as [|x l IH]; simpl.
  - split; [|done]. intros _ y Hy. by inversion Hy.
  - rewrite and_then_true, IH. split.
    + intros [Hx Hl] y [->|Hy]%elem_of_cons; auto.
    + intros Hall. split; [apply Hall; by left|].
      intros y Hy. apply Hall. by right.
Qed.

Lemma with_prop_lookup {A B} (k : string) (found : A -> B) (missing : B)
    (props : list (string * A)) :
  with_prop k found missing props =
    match lookup_prop k props with Some t => found t | None => missing end.
Proof.
  unfold lookup_prop. induction props as [|[k' t] props IH]; simpl; [done|].
  destruct (String.eqb k' k); done.
Qed.

Lemma has_key_lookup {A} (k : string) (props : list (string * A)) :
  has_key k props = true <-> is_Some (lookup_prop k props).
Proof.
  unfold has_key, lookup_prop.
  induction props as [|[k' t] props IH]; simpl.
  - split; [done|]. by intros [? ?].
  - destruct (String.eqb k' k); simpl; [|done]. split; eauto.
Qed.

Lemma has_key_elem_of {A} (k : string) (props : list (string * A)) :
  has_key k props = true <-> k ∈ map fst props.
Proof.
  unfold has_key. induction props as [|[k' t] props IH]; simpl.
  - split; [done|]. intros Hin. by inversion Hin.
  - rewrite elem_of_cons, <- IH.
    destruct (String.eqb_spec k' k) as [->|Hne]; simpl.
    + split; auto.
    + split; [auto|]. intros [->|?]; done.
Qed.

(** X21.  For a descriptor that has no field named [$c] or
    [hasOwnProperty], the fixed structure object branch accepts an object
    exactly when the two key sets are equal and each field validates
    against the descriptor of its name.  An object with an own property
    [hasOwnProperty] is among those it does not accept. *)
Lemma validate_fixed_object_on_objects (props fields : list (string * value)) :
  has_key "hasOwnProperty" fields = false ->
  has_key "$c" fields = false ->
  validate (VObj props) (VObj fields) = Normal true <->
    (∀ k, has_key k props = has_key k fields)
    ∧ (∀ k v, lookup_prop k props = Some v ->
         ∃ t, lookup_prop k fields = Some t ∧ validate v t = Normal true).
Proof.
  intros Hs Hc. rewrite validate_fixed_object by done.
  cbn [Object_keys own_entries bind].
  rewrite !and_then_true, !every_true. split.
  - intros (Hfields & Hprops & Hvals).
    assert (Hkeys : ∀ k, has_key k props = has_key k fields).
    { intros k. destruct (has_key k props) eqn:Hp, (has_key k fields) eqn:Hf;
        try done.
      - apply has_key_elem_of, Hprops in Hp. congruence.
      - apply has_key_elem_of, Hfields in Hf. cbn [hasOwnProperty] in Hf.
        destruct (has_key "hasOwnProperty" props); congruence. }
    split; [done|].
    intros k v Hv.
    assert (Hin : k ∈ map fst props).
    { apply has_key_elem_of, has_key_lookup. rewrite Hv. eauto. }
    specialize (Hvals k Hin). rewrite with_prop_lookup in Hvals.
    destruct (lookup_prop k fields) as [t|]; [|done].
    exists t. split; [done|].
    unfold get_prop in Hvals. cbn [own_entries] in Hvals.
    rewrite with_prop_lookup, Hv in Hvals. done.
  - intros [Hkeys Hvals].
    assert (Hp : has_key "hasOwnProperty" props = false)
      by (by rewrite Hkeys).
    split; [|split].
    + intros k Hk. rewrite hasOwnProperty_unshadowed by done.
      f_equal. rewrite Hkeys. by apply has_key_elem_of.
    + intros k Hk. f_equal. rewrite <- Hkeys. by apply has_key_elem_of.
    + intros k Hk. apply has_key_elem_of, has_key_lookup in Hk as [v Hv].
      destruct (Hvals k v Hv) as (t & Ht & Hvt).
      rewrite with_prop_lookup, Ht. unfold get_prop. cbn [own_entries].
      rewrite with_prop_lookup, Hv. done.
Qed.

Lemma validate_fixed_object_on_objects_witness :
  validate (VObj [("a", VNum 1); ("b", VNum 2)])
    (VObj [("b", H.number); ("a", H.number)]) = Normal true.
Proof.
  apply (validate_fixed_object_on_objects
           [("a", VNum 1); ("b", VNum 2)] [("b", H.number); ("a", H.number)]);
    [reflexivity|reflexivity|].
  split.
  - intros k. unfold has_key. cbn [existsb fst].
    destruct (String.eqb "a" k), (String.eqb "b" k); reflexivity.
  - intros k v. unfold lookup_prop. cbn [with_prop].
    destruct (String.eqb "a" k) eqn:Ha, (String.eqb "b" k) eqn:Hb;
      intros [= <-]; eexists; (split; [reflexivity|reflexivity]).
Defined.

Lemma Sendable_nested_ind (P : Sendable -> Prop) :
  P SNone -> P SString -> P SNumber -> P SBoolean ->
  (∀ elem, P elem -> P (SVariableArray elem)) ->
  (∀ k elem, P elem -> P (SVariableObject k elem)) ->
  (∀ alts, Forall P alts -> P (SUnion alts)) ->
  (∀ elems, Forall P elems -> P (SFixedArray elems)) ->
  (∀ fields, Forall (fun p => P (snd p)) fields -> P (SFixedObject fields)) ->
  ∀ T, P T.
Proof.
  intros HN HS HNu HB HVA HVO HU HFA HFO.
  fix IH 1. intros [| | | |elem|k elem|alts|elems|fields].
  - exact HN.
  - exact HS.
  - exact HNu.
  - exact HB.
  - apply HVA, IH.
  - apply HVO, IH.
  - apply HU. induction alts as [|T alts IHalts]; constructor;
      [apply IH|exact IHalts].
  - apply HFA. induction elems as [|T elems IHelems]; constructor;
      [apply IH|exact IHelems].
  - apply HFO. induction fields as [|[k T] fields IHfields]; constructor;
      [apply IH|exact IHfields].
Qed.

Lemma and_then_returns (a b : completion bool) :
  returns_bool a -> returns_bool b -> returns_bool (and_then a b).
Proof. intros [[] ->] [y ->]; simpl; unfold returns_bool; eauto. Qed.

Lemma every_returns {A} (f : A -> completion bool) (l : list A) :
  (∀ x, x ∈ l -> returns_bool (f x)) -> returns_bool (every f l).
Proof.
  induction l as [|x l IH]; intros Hf; simpl; [by exists true|].
  apply and_then_returns; [apply Hf; by left|].
  apply IH. intros y Hy. apply Hf. by right.
Qed.

Lemma some_returns {A} (f : A -> completion bool) (l : list A) :
  (∀ x, x ∈ l -> returns_bool (f x)) -> returns_bool (some f l).
Proof.
  induction l as [|x l IH]; intros Hf; simpl; [by exists false|].
  destruct (Hf x) as [[] ->]; [by left|by exists true|]. simpl.
  apply IH. intros y Hy. apply Hf. by right.
Qed.

Lemma validate_variable_array (v valueType : value) :
  validate v (H.array valueType) =
    if isArray v then every (fun x => validate x valueType) (elements_of v)
    else Normal false.
Proof. destruct v; reflexivity. Qed.

Lemma validate_variable_object_any (v keyType valueType : value) :
  validate v (H.object keyType valueType) =
    if isObject v then
      and_then (let* ks := Object_keys v in
                every (fun k => validate (VStr k) keyType) ks)
               (let* vs := Object_values v in
                every (fun x => validate x valueType) vs)
    else Normal false.
Proof. destruct v; reflexivity. Qed.

Lemma validate_union (v : value) (unionTypes : list value) :
  validate v (H.union unionTypes) = some (fun t => validate v t) unionTypes.
Proof. destruct v; reflexivity. Qed.

Lemma strict_eq_descriptor (F : Sendable) (n : Z) :
  4 ≤ n -> strict_eq_num (descriptor F) n = false.
Proof.
  intros Hn. destruct F; try reflexivity; unfold descriptor, strict_eq_num;
    [change H.none with (VNum 0) | change H.string with (VNum 1)
     | change H.number with (VNum 2) | change H.boolean with (VNum 3)];
    cbv beta iota; apply Z.eqb_neq; lia.
Qed.

Lemma strict_eq_tag_of_fields (fields : list (string * Sendable)) (n : Z) :
  4 ≤ n ->
  strict_eq_num
    (with_prop "$c" (fun t => t) VUndefined
       (map (fun '(k, F) => (k, descriptor F)) fields)) n = false.
Proof.
  intros Hn. induction fields as [|[k F] fields IH]; simpl; [done|].
  destruct (String.eqb k "$c"); [by apply strict_eq_descriptor|exact IH].
Qed.

Lemma validate_tagged_other (v : value) (fields : list (string * value)) :
  has_key "hasOwnProperty" fields = false ->
  has_key "$c" fields = true ->
  (∀ n, 4 ≤ n ->
     strict_eq_num (with_prop "$c" (fun t => t) VUndefined fields) n = false) ->
  validate v (VObj fields) = Normal false.
Proof.
  intros Hs Hc Hn. cbn [validate hasOwnProperty]. rewrite Hs, Hc.
  cbn [bind]. rewrite !Hn by lia. rewrite andb_false_r. reflexivity.
Qed.

Lemma lookup_prop_descriptor (k : string) (fields : list (string * Sendable))
    (t : value) :
  lookup_prop k (map (fun '(k, F) => (k, descriptor F)) fields) = Some t ->
  ∃ p, p ∈ fields ∧ t = descriptor (snd p).
Proof.
  unfold lookup_prop. induction fields as [|[k' F] fields IH]; simpl; [done|].
  destruct (String.eqb k' k).
  - intros [= <-]. exists (k', F). split; [by left|done].
  - intros Ht. destruct (IH Ht) as (p & Hp & ->). exists p.
    split; [by right|done].
Qed.

Lemma indexed_plain (l : list value) (i : nat) :
  Forall plain l -> Forall (fun p => plain (snd p)) (indexed i l).
Proof.
  intros Hl. revert i. induction Hl as [|x l Hx _ IH]; intros i; simpl;
    constructor; auto.
Qed.

Lemma chars_plain (s : string) : Forall plain (chars s).
Proof. induction s as [|c s IH]; simpl; constructor; [by split|done]. Qed.

Lemma plain_elements (l : list value) :
  plain (VArr l) -> Forall plain l.
Proof.
  intros [Hn Hu]. simpl in Hn, Hu. rewrite forallb_forall in Hn, Hu.
  apply Forall_forall. intros x Hx%list_elem_of_In. split; auto.
Qed.

Lemma plain_props (props : list (string * value)) :
  plain (VObj props) ->
  has_key "hasOwnProperty" props = false
  ∧ Forall (fun p => plain (snd p)) props.
Proof.
  intros [Hn Hu]. simpl in Hn, Hu. apply andb_prop in Hu as [Hs Hu].
  apply negb_true_iff in Hs. split; [done|].
  rewrite forallb_forall in Hn, Hu.
  apply Forall_forall. intros [k x] Hx%list_elem_of_In.
  split; [apply (Hn _ Hx)|apply (Hu _ Hx)].
Qed.

(** The own properties of a plain value are plain. *)
Lemma own_entries_plain (v : value) :
  plain v ->
  ∃ es, own_entries v = Normal es ∧ Forall (fun p => plain (snd p)) es.
Proof.
  destruct v as [| |b|n|s|l|props]; intros Hv; try (by destruct Hv); simpl.
  - exists []. split; [done|constructor].
  - exists []. split; [done|constructor].
  - eexists. split; [done|]. apply indexed_plain, chars_plain.
  - eexists. split; [done|]. by apply indexed_plain, plain_elements.
  - exists props. split; [done|]. by apply plain_props.
Qed.

Lemma lookup_prop_plain (k : string) (es : list (string * value)) :
  Forall (fun p => plain (snd p)) es ->
  k ∈ map fst es ->
  plain (with_prop k (fun x => x) VUndefined es).
Proof.
  induction 1 as [|[k' x] es Hx Hes IH]; simpl.
  - intros Hin. by inversion Hin.
  - intros Hin. destruct (String.eqb_spec k' k) as [->|Hne]; [done|].
    apply IH. apply elem_of_cons in Hin as [->|Hin]; done.
Qed.

Lemma hasOwnProperty_plain (v : value) (k : string) :
  plain v -> returns_bool (hasOwnProperty v k).
Proof.
  destruct v as [| |b|n|s|l|props]; intros Hv; try (by destruct Hv);
    try (by eexists).
  destruct (plain_props _ Hv) as [Hs _].
  rewrite hasOwnProperty_unshadowed by done. by eexists.
Qed.

(** X20.  [validate] returns a boolean whenever neither [null] nor
    [undefined] occurs in the value and no object of the value and no
    fixed structure object of the descriptor has a property named
    [hasOwnProperty]: the exceptions of [validate] on descriptors of the
    grammar need one of these. *)
Lemma validate_total_without_null (T : Sendable) :
  unshadowed_fields T = true ->
  ∀ v, no_null v = true -> unshadowed v = true ->
       returns_bool (validate v (descriptor T)).
Proof.
  intros HT v Hn Hu. assert (Hv : plain v) by (by split). clear Hn Hu.
  revert HT v Hv.
  induction T as [| | | |elem IH|k elem IH|alts IH|elems IH|fields IH]
    using Sendable_nested_ind; intros HT v Hv.
  - by eexists.
  - by eexists.
  - by eexists.
  - by eexists.
  - cbn [descriptor]. rewrite validate_variable_array.
    destruct v as [| |b|n|s|l|props]; try by eexists.
    cbn [isArray elements_of]. apply every_returns. intros x Hx.
    apply IH; [done|].
    pose proof (plain_elements _ Hv) as Hl. rewrite Forall_forall in Hl. auto.
  - cbn [descriptor]. rewrite validate_variable_object_any.
    destruct v as [| |b|n|s|l|props]; try (by destruct Hv); try by eexists.
    cbn [isObject Object_keys Object_values own_entries bind].
    destruct (plain_props _ Hv) as [_ Hprops]. rewrite Forall_forall in Hprops.
    apply and_then_returns; apply every_returns.
    + intros key _. destruct k; by eexists.
    + intros x Hx. apply IH; [done|].
      apply list_elem_of_fmap in Hx as (p & -> & Hin). auto.
  - cbn [descriptor]. rewrite validate_union. apply some_returns.
    intros t Ht. apply list_elem_of_fmap in Ht as (F & -> & HF).
    rewrite Forall_forall in IH. apply IH; [done| |done].
    cbn [unshadowed_fields] in HT. rewrite forallb_forall in HT.
    by apply HT, list_elem_of_In.
  - cbn [descriptor validate].
    destruct v as [| |b|n|s|l|props]; try by eexists.
    rewrite length_map. destruct (Nat.eqb _ _); [|by eexists].
    pose proof (plain_elements _ Hv) as Hl.
    cbn [unshadowed_fields] in HT. clear Hv. revert l Hl.
    induction IH as [|F elems HF _ IHelems]; intros l Hl; [by eexists|].
    destruct l as [|x l]; [by eexists|].
    apply Forall_cons in Hl as [Hx Hl]. cbn [forallb] in HT.
    apply andb_prop in HT as [HF' HT]. cbn [map every_zip].
    apply and_then_returns; [by apply HF|by apply IHelems].
  - cbn [descriptor]. cbn [unshadowed_fields] in HT.
    apply andb_prop in HT as [Hs HT]. apply negb_true_iff in Hs.
    rewrite <- (has_key_descriptor_fields "hasOwnProperty") in Hs.
    destruct (has_key "$c" (map (fun '(k, F) => (k, descriptor F)) fields))
      eqn:Hc.
    { exists false. apply validate_tagged_other; [done..|].
      intros n Hn. by apply strict_eq_tag_of_fields. }
    rewrite validate_fixed_object by done.
    destruct (own_entries_plain v Hv) as (es & Hes & Hnn).
    unfold Object_keys. rewrite Hes. cbn [bind].
    apply and_then_returns; [|apply and_then_returns]; apply every_returns.
    + intros key _. by apply hasOwnProperty_plain.
    + intros key _. by eexists.
    + intros key Hkey. rewrite with_prop_lookup.
      destruct (lookup_prop key _) as [t|] eqn:Ht; [|by eexists].
      apply lookup_prop_descriptor in Ht as (p & Hp & ->).
      rewrite Forall_forall in IH. apply (IH p Hp).
      * rewrite forallb_forall in HT. destruct p as [kp Fp].
        by apply (HT (kp, Fp)), list_elem_of_In.
      * unfold get_prop. rewrite Hes. by apply lookup_prop_plain.
Qed.

Lemma validate_total_without_null_witness :
  returns_bool
    (validate (VObj [("a", VArr [VNum 1; VStr "x"])])
       (descriptor (SFixedObject [("a", SVariableArray SNumber)]))).
Proof.
  apply (validate_total_without_null
           (SFixedObject [("a", SVariableArray SNumber)]));
    reflexivity.
Defined.

(** C8.  The fixed structure object branch does not test that the value
    is an object: a number validates against the descriptor with no
    fields, and an array or a string against one whose keys are their
    indices. *)
Theorem validate_fixed_object_accepts_non_objects :
  validate (VNum 5) (descriptor (SFixedObject [])) = Normal true
  ∧ validate (VArr [VStr "x"]) (descriptor (SFixedObject [("0", SString)]))
    = Normal true
  ∧ validate (VStr "x") (descriptor (SFixedObject [("0", SString)]))
    = Normal true.
Proof. repeat split; reflexivity. Qed.

End Validator.

(** * Further properties of [validate] *)

Section ValidatorShapes.

Lemma every_zip_true (f : value -> value -> completion bool)
    (ts vs : list value) :
  length ts = length vs ->
  every_zip f ts vs = Normal true
  <-> Forall2 (fun x t => f x t = Normal true) vs ts.
Proof.
  revert vs. induction ts as [|t ts IH]; intros [|x vs] Hlen; try discriminate.
  - simpl. split; [constructor|done].
  - cbn [every_zip]. rewrite and_then_true, IH by (simpl in Hlen; lia).
    split.
    + intros [Hx Hrest]. by constructor.
    + intros Hall. by inversion Hall; subst.
Qed.

(** X1.  Against a fixed structure array, [validate] returns [true]
    exactly for the arrays of the same length whose element at each
    position validates against the descriptor at that position.  An array
    of another length and a value that is no array are rejected before
    any element is looked at, so without exception. *)
Theorem fixed_array_is_positional (v : value) (ts : list value) :
  (validate v (VArr ts) = Normal true
   <-> ∃ vs, v = VArr vs
             ∧ Forall2 (fun x t => validate x t = Normal true) vs ts)
  ∧ (∀ vs, v = VArr vs -> length vs ≠ length ts ->
       validate v (VArr ts) = Normal false)
  ∧ (isArray v = false -> validate v (VArr ts) = Normal false).
Proof.
  split; [|split].
  - destruct v as [| |b|n|s|vs|props];
      try (split; [discriminate|by intros (vs & [=] & _)]).
    cbn [validate]. destruct (Nat.eqb_spec (length ts) (length vs)) as [Hlen|Hlen].
    + rewrite every_zip_true by done. split; [eauto|].
      by intros (vs' & [= <-] & Hall).
    + split; [discriminate|]. intros (vs' & [= <-] & Hall).
      apply Forall2_length in Hall. congruence.
  - intros vs -> Hlen. cbn [validate].
    destruct (Nat.eqb_spec (length ts) (length vs)); [congruence|done].
  - destruct v; try done.
Qed.

(** X2.  Against a variable structure array, [validate] returns [true]
    exactly for the arrays all of whose elements validate against the
    element descriptor; the empty array is among them whatever that
    descriptor is. *)
Theorem variable_array_checks_every_element (v valueType : value) :
  validate v (H.array valueType) = Normal true
  <-> ∃ vs, v = VArr vs
            ∧ Forall (fun x => validate x valueType = Normal true) vs.
Proof.
  rewrite validate_variable_array.
  destruct v as [| |b|n|s|vs|props]; cbn [isArray elements_of];
    try (split; [discriminate|by intros (vs & [=] & _)]).
  rewrite every_true. split.
  - intros Hall. exists vs. split; [done|]. by apply Forall_forall.
  - intros (vs' & [= <-] & Hall). by apply Forall_forall.
Qed.

(** X3.  Against a variable structure object whose key kind is [String],
    the key check always holds: [validate] returns [true] exactly for the
    objects all of whose values validate against the element descriptor. *)
Theorem string_keyed_object_checks_values_only (v valueType : value) :
  validate v (H.object H.string valueType) = Normal true
  <-> ∃ props, v = VObj props
               ∧ Forall (fun p => validate (snd p) valueType = Normal true)
                   props.
Proof.
  rewrite validate_variable_object_any.
  destruct v as [| |b|n|s|vs|props]; cbn [isObject];
    try (split; [discriminate|by intros (ps & [=] & _)]).
  cbn [Object_keys Object_values own_entries bind].
  rewrite and_then_true, !every_true. split.
  - intros [_ Hvals]. exists props. split; [done|].
    apply Forall_forall. intros p Hp. apply Hvals.
    by apply list_elem_of_fmap_2.
  - intros (ps & [= <-] & Hall). rewrite Forall_forall in Hall. split.
    + intros k _. reflexivity.
    + intros x (p & -> & Hp)%list_elem_of_fmap. by apply Hall.
Qed.

Lemma some_false {A} (f : A -> completion bool) (l : list A) :
  some f l = Normal false <-> Forall (fun y => f y = Normal false) l.
Proof.
  induction l as [|x l IH]; simpl.
  - split; [constructor|done].
  - destruct (f x) as [[]|] eqn:Hx; simpl.
    + split; [discriminate|]. intros Hall. inversion Hall; congruence.
    + rewrite IH. split; [by constructor|]. intros Hall. by inversion Hall.
    + split; [discriminate|]. intros Hall. inversion Hall; congruence.
Qed.

Lemma some_true {A} (f : A -> completion bool) (l : list A) :
  some f l = Normal true
  <-> ∃ l1 x l2, l = l1 ++ x :: l2 ∧ f x = Normal true
                 ∧ Forall (fun y => f y = Normal false) l1.
Proof.
  induction l as [|x l IH]; simpl.
  - split; [discriminate|]. intros (l1 & y & l2 & Hl & _).
    by destruct l1.
  - destruct (f x) as [[]|] eqn:Hx; simpl.
    + split; [|done]. intros _. exists [], x, l. repeat split; [done|constructor].
    + rewrite IH. split.
      * intros (l1 & y & l2 & -> & Hy & Hl1). exists (x :: l1), y, l2.
        repeat split; [done|by constructor].
      * intros (l1 & y & l2 & Hl & Hy & Hl1).
        destruct l1 as [|x' l1]; simpl in Hl; inversion Hl; subst;
          [congruence|].
        exists l1, y, l2. repeat split; [done|]. by inversion Hl1.
    + split; [discriminate|]. intros (l1 & y & l2 & Hl & Hy & Hl1).
      destruct l1 as [|x' l1]; simpl in Hl; inversion Hl; subst;
        [congruence|].
      inversion Hl1; congruence.
Qed.

(** X4.  [validate] returns [true] against a union exactly when some
    alternative returns [true] and every alternative listed before it
    returns [false]; it returns [false] exactly when every alternative
    does.  An exception of an alternative that is reached ends the call,
    and the union without alternatives rejects every value. *)
Theorem union_takes_first_match (v : value) (unionTypes : list value) :
  (validate v (H.union unionTypes) = Normal true
   <-> ∃ before t after,
         unionTypes = before ++ t :: after
         ∧ validate v t = Normal true
         ∧ Forall (fun t' => validate v t' = Normal false) before)
  ∧ (validate v (H.union unionTypes) = Normal false
     <-> Forall (fun t => validate v t = Normal false) unionTypes).
Proof.
  rewrite validate_union. split; [apply some_true|apply some_false].
Qed.

(** X5.  A fixed structure object descriptor with a field named [$c],
    and none named [hasOwnProperty], is read as a tagged descriptor with
    an unknown tag: it rejects every value, also the objects that have
    exactly its fields. *)
Theorem reserved_field_name_rejects_all (fields : list (string * Sendable))
    (v : value) :
  has_key "hasOwnProperty" fields = false ->
  has_key "$c" fields = true ->
  validate v (descriptor (SFixedObject fields)) = Normal false.
Proof.
  intros Hs Hc. cbn [descriptor]. apply validate_tagged_other.
  - by rewrite has_key_descriptor_fields.
  - by rewrite has_key_descriptor_fields.
  - intros n Hn. by apply strict_eq_tag_of_fields.
Qed.

Lemma some_false_or_throws {A} (f : A -> completion bool) (l : list A)
    (ex : exn) :
  Forall (fun x => f x = Normal false ∨ f x = Throw ex) l ->
  some f l = Normal false ∨ some f l = Throw ex.
Proof.
  induction 1 as [|x l [Hx|Hx] _ IH]; simpl; [by left|..];
    rewrite Hx; simpl; auto.
Qed.

(** X6.  [undefined] validates against no descriptor of the grammar, not
    even [None]: the call returns [false] or raises a [TypeError].  This
    is why the engine turns the [undefined] result of a local function
    into [null] before sending it. *)
Theorem undefined_never_validates (T : Sendable) :
  validate VUndefined (descriptor T) = Normal false
  ∨ validate VUndefined (descriptor T) = Throw TypeError.
Proof.
  induction T as [| | | |elem IH|k elem IH|alts IH|elems IH|fields IH]
    using Sendable_nested_ind; try (by left).
  - cbn [descriptor]. rewrite validate_union. apply some_false_or_throws.
    apply Forall_forall. intros t (F & -> & HF)%list_elem_of_fmap.
    rewrite Forall_forall in IH. by apply IH.
  - cbn [descriptor].
    destruct (has_key "hasOwnProperty"
                (map (fun '(k, F) => (k, descriptor F)) fields)) eqn:Hs.
    { right. by apply validate_shadowed_descriptor. }
    destruct (has_key "$c" (map (fun '(k, F) => (k, descriptor F)) fields))
      eqn:Hc.
    + left. rewrite validate_tagged_other; [done..|].
      intros n Hn. by apply strict_eq_tag_of_fields.
    + right. rewrite validate_fixed_object by done.
      destruct fields as [|[k F] fields]; reflexivity.
Qed.

End ValidatorShapes.

Lemma reserved_field_name_rejects_all_witness :
  validate (VObj [("$c", VNum 7)]) (descriptor (SFixedObject [("$c", SNumber)]))
  = Normal false.
Proof.
  apply (reserved_field_name_rejects_all [("$c", SNumber)]); reflexivity.
Defined.

(** * Properties of the channel engine *)

(** Projections of the states the operations build. *)
Ltac engine_simpl :=
  cbn [open counter remoteFunctions inFlight published expected wire settled
       invoked running microtasks beyond set_open set_counter
       set_remoteFunctions set_inFlight set_published set_expected set_running
       set_microtasks leave send settle settle_held invoke sendFunction fresh
       rpc_name rpc_returns rpc_call w_call w_prop w_args
       inv_name inv_nonce inv_args] in *.

(** The cases of one step other than the close notification, down to the
    state each one ends in. *)
Ltac step_leaves ev :=
  destruct ev as [?lfd|?id ?prop ?args|?id [|?prop|[?name ?returns|]|?prop] ?args
                  |[?name ?args ?returns|?nonce ?name ?args|?nonce ?v
                    |?nonce ?message|?name]
                  | |?nonce ?result|?nonce [?text|]|];
  cbn [step];
  unfold publishFunction, call, get, call_function, receive, fn_returned,
    fn_threw, tick, resume, invoke_remote, settle_held;
  engine_simpl;
  repeat case_match;
  simplify_eq;
  engine_simpl.

(** Splits the membership of a message in a wire that a step extended. *)
Ltac wire_cases H :=
  repeat (apply elem_of_app in H as [H|H]);
  try (apply list_elem_of_singleton in H; simplify_eq).

Section Executions.

Lemma run_snoc (e : Engine) (evs : list Event) (ev : Event) :
  run e (evs ++ [ev]) = step (run e evs) ev.
Proof. unfold run. by rewrite foldl_app. Qed.

Lemma run_cons (e : Engine) (ev : Event) (evs : list Event) :
  run e (ev :: evs) = run (step e ev) evs.
Proof. reflexivity. Qed.

(** The state [createChannel] returns is the fresh state after the
    initial publications, so the executions from [fresh] cover every
    channel. *)
Lemma publish_all_run (publish : list LocalFunctionDefinition)
    (e e' : Engine) :
  publish_all publish e = Normal e' -> e' = run e (map EvPublish publish).
Proof.
  revert e. induction publish as [|rfd rest IH]; intros e;
    cbn [publish_all map].
  - by intros [= ->].
  - rewrite run_cons. cbn [step].
    destruct (publishFunction rfd e) as [e1|ex]; cbn [bind]; [|done].
    apply IH.
Qed.

Lemma createChannel_run (publish : list LocalFunctionDefinition)
    (e : Engine) :
  createChannel publish = Normal e -> e = run fresh (map EvPublish publish).
Proof. apply publish_all_run. Qed.

(** [validate] throws nothing but a [TypeError]. *)
Lemma every_throws_TypeError {A} (f : A -> completion bool) (l : list A)
    (ex : exn) :
  (∀ x ex', x ∈ l -> f x = Throw ex' -> ex' = TypeError) ->
  every f l = Throw ex -> ex = TypeError.
Proof.
  induction l as [|x l IH]; intros Hf; simpl; [done|].
  unfold and_then. destruct (f x) as [[]|ex'] eqn:Hx; simpl.
  - apply IH. intros y ey Hy. apply Hf. by right.
  - done.
  - intros [= <-]. apply (Hf x); [by left|done].
Qed.

Lemma some_throws_TypeError {A} (f : A -> completion bool) (l : list A)
    (ex : exn) :
  (∀ x ex', x ∈ l -> f x = Throw ex' -> ex' = TypeError) ->
  some f l = Throw ex -> ex = TypeError.
Proof.
  induction l as [|x l IH]; intros Hf; simpl; [done|].
  destruct (f x) as [[]|ex'] eqn:Hx; simpl.
  - done.
  - apply IH. intros y ey Hy. apply Hf. by right.
  - intros [= <-]. apply (Hf x); [by left|done].
Qed.

End Executions.

Section Close.

Lemma omap_ext_in {A B} (f g : A -> option B) (l : list A) :
  (∀ x, x ∈ l -> f x = g x) -> omap f l = omap g l.
Proof.
  induction l as [|x l IH]; intros Hfg; [done|]. cbn [omap list_omap].
  rewrite (Hfg x) by (by left). rewrite IH; [done|].
  intros y Hy. apply Hfg. by right.
Qed.

(** The first loop of the close handler touches the in-flight table and
    the settled results only. *)
Lemma foldl_fail_closed_frame (ks : list Z) (e : Engine) :
  let e' := foldl fail_closed e ks in
  open e' = open e ∧ counter e' = counter e
  ∧ remoteFunctions e' = remoteFunctions e ∧ published e' = published e
  ∧ expected e' = expected e ∧ wire e' = wire e ∧ invoked e' = invoked e
  ∧ running e' = running e ∧ microtasks e' = microtasks e
  ∧ beyond e' = beyond e.
Proof.
  revert e. induction ks as [|k ks IH]; intros e; simpl; [done|].
  destruct (IH (fail_closed e k))
    as (-> & -> & -> & -> & -> & -> & -> & -> & -> & ->).
  unfold fail_closed. destruct (inFlight e !! k) as [[? ? []]|]; done.
Qed.

Lemma foldl_fail_closed_inFlight (ks : list Z) (e : Engine) :
  inFlight (foldl fail_closed e ks)
  = foldl (fun m k => delete k m) (inFlight e) ks.
Proof.
  revert e. induction ks as [|k ks IH]; intros e; simpl; [done|].
  rewrite IH. f_equal. unfold fail_closed.
  destruct (inFlight e !! k) as [[? ? []]|] eqn:Hk; simpl; [done..|].
  symmetry. by apply delete_id.
Qed.

Lemma lookup_foldl_delete (ks : list Z) (m : gmap Z InFlightRPC) (n : Z) :
  foldl (fun m k => delete k m) m ks !! n
  = if decide (n ∈ ks) then None else m !! n.
Proof.
  revert m. induction ks as [|k ks IH]; intros m; simpl.
  - destruct (decide (n ∈ [])) as [Hin|]; [by inversion Hin|done].
  - rewrite IH. destruct (decide (n = k)) as [->|Hne].
    + rewrite lookup_delete_eq.
      destruct (decide (k ∈ ks)), (decide (k ∈ k :: ks)) as [|Hn]; try done.
      all: exfalso; apply Hn; by left.
    + rewrite lookup_delete_ne by done.
      destruct (decide (n ∈ ks)) as [Hin|Hin],
               (decide (n ∈ k :: ks)) as [Hin'|Hin']; try done.
      * exfalso. apply Hin'. by right.
      * exfalso. apply Hin. by apply elem_of_cons in Hin' as [?|?].
Qed.

Lemma foldl_fail_closed_settled (ks : list Z) (e : Engine) :
  NoDup ks ->
  settled (foldl fail_closed e ks)
  = settled e ++ (ks ≫= closed_failure (inFlight e)).
Proof.
  revert e. induction ks as [|k ks IH]; intros e Hnd.
  - cbn. by rewrite app_nil_r.
  - apply NoDup_cons in Hnd as [Hk Hnd]. cbn [foldl]. rewrite IH by done.
    assert (Hrest : ks ≫= closed_failure (inFlight (fail_closed e k))
                    = ks ≫= closed_failure (inFlight e)).
    { clear IH Hnd. induction ks as [|k' ks IHks]; [done|].
      rewrite !bind_cons. rewrite IHks.
      - f_equal. unfold closed_failure, fail_closed.
        destruct (inFlight e !! k) as [[? ? []]|]; simpl; [..|done];
          (rewrite lookup_delete_ne; [done|]; intros ->; apply Hk; by left).
      - intros Hin. apply Hk. by right. }
    rewrite Hrest, bind_cons, app_assoc. f_equal.
    unfold fail_closed, closed_failure.
    destruct (inFlight e !! k) as [[? ? []]|]; simpl;
      [done|by rewrite app_nil_r..].
Qed.

Lemma inFlight_keys_spec (e : Engine) :
  NoDup (inFlight_keys e)
  ∧ length (inFlight_keys e) = size (inFlight e)
  ∧ ∀ k, k ∈ inFlight_keys e ↔ is_Some (inFlight e !! k).
Proof.
  unfold inFlight_keys.
  pose proof (merge_sort_Permutation Z.le (map fst (map_to_list (inFlight e))))
    as Hperm.
  split; [|split].
  - rewrite Hperm. apply NoDup_fst_map_to_list.
  - rewrite Hperm, length_map. apply length_map_to_list.
  - intros k. rewrite Hperm. split.
    + intros Hk. apply list_elem_of_fmap in Hk as ([k' rpc] & -> & Hin).
      apply elem_of_map_to_list in Hin. eauto.
    + intros [rpc Hrpc]. apply list_elem_of_fmap. exists (k, rpc).
      split; [done|]. by apply elem_of_map_to_list.
Qed.

(** The close handler empties the in-flight table. *)
Lemma close_inFlight (e : Engine) : inFlight (close e) = ∅.
Proof.
  unfold close. cbn [inFlight set_remoteFunctions].
  rewrite foldl_fail_closed_inFlight. apply map_eq. intros n.
  rewrite lookup_foldl_delete, lookup_empty.
  case_decide as Hin; [done|].
  destruct (inFlight (set_open false e) !! n) eqn:Hn; [|done].
  exfalso. apply Hin. apply inFlight_keys_spec. eauto.
Qed.

Lemma close_settled (e : Engine) :
  settled (close e)
  = settled e ++ (inFlight_keys e ≫= closed_failure (inFlight e)).
Proof.
  unfold close. cbn [settled set_remoteFunctions].
  rewrite foldl_fail_closed_settled; [done|].
  apply (inFlight_keys_spec (set_open false e)).
Qed.

Lemma close_frame (e : Engine) :
  open (close e) = false
  ∧ counter (close e) = counter e
  ∧ remoteFunctions (close e) = (fun _ => Inert) <$> remoteFunctions e
  ∧ published (close e) = published e
  ∧ expected (close e) = expected e
  ∧ wire (close e) = wire e
  ∧ invoked (close e) = invoked e
  ∧ running (close e) = running e
  ∧ microtasks (close e) = microtasks e
  ∧ beyond (close e) = beyond e.
Proof.
  unfold close. engine_simpl.
  destruct (foldl_fail_closed_frame (inFlight_keys (set_open false e))
              (set_open false e))
    as (-> & -> & -> & -> & -> & -> & -> & -> & -> & ->).
  done.
Qed.

Lemma close_remoteFunctions (e : Engine) :
  remoteFunctions (close e) = (fun _ => Inert) <$> remoteFunctions e.
Proof. apply close_frame. Qed.

Lemma close_published (e : Engine) : published (close e) = published e.
Proof. apply close_frame. Qed.

Lemma close_expected (e : Engine) : expected (close e) = expected e.
Proof. apply close_frame. Qed.

Lemma close_invoked (e : Engine) : invoked (close e) = invoked e.
Proof. apply close_frame. Qed.

Lemma close_running (e : Engine) : running (close e) = running e.
Proof. apply close_frame. Qed.

Lemma close_microtasks (e : Engine) : microtasks (close e) = microtasks e.
Proof. apply close_frame. Qed.

Lemma close_beyond (e : Engine) : beyond (close e) = beyond e.
Proof. apply close_frame. Qed.

Lemma close_open (e : Engine) : open (close e) = false.
Proof. apply close_frame. Qed.

Lemma close_wire (e : Engine) : wire (close e) = wire e.
Proof. apply close_frame. Qed.

Lemma close_counter (e : Engine) : counter (close e) = counter e.
Proof. apply close_frame. Qed.

(** A [result] or [error] message changes nothing while the in-flight
    table is empty. *)
Lemma receive_completion_empty (m : Message) (e : Engine) :
  is_completion m = true -> inFlight e = ∅ -> receive m e = e.
Proof.
  intros Hm He. destruct m; try discriminate; unfold receive;
    rewrite He, lookup_empty; done.
Qed.

(** What the close handler fails: the deferred results of the in-flight
    table that somebody holds, these and no others, each with
    [Connection Closed]. *)
Lemma close_failures (e : Engine) :
  ∃ failures,
    settled (close e) = settled e ++ failures
    ∧ (∀ n rpc id, inFlight e !! n = Some rpc -> rpc_call rpc = Some id ->
         (id, Failed "Connection Closed") ∈ failures)
    ∧ (∀ x, x ∈ failures ->
         snd x = Failed "Connection Closed"
         ∧ ∃ n rpc, inFlight e !! n = Some rpc ∧ rpc_call rpc = Some (fst x)).
Proof.
  exists (inFlight_keys e ≫= closed_failure (inFlight e)).
  destruct (inFlight_keys_spec e) as (_ & _ & Hin).
  split; [apply close_settled|]. split.
  - intros n rpc id Hrpc Hid. apply list_elem_of_bind. exists n. split.
    + unfold closed_failure. rewrite Hrpc, Hid. by left.
    + apply Hin. eauto.
  - intros x (k & Hx & Hk)%list_elem_of_bind.
    unfold closed_failure in Hx.
    destruct (inFlight e !! k) as [rpc|] eqn:Hrpc; [|by inversion Hx].
    destruct (rpc_call rpc) as [id|] eqn:Hid; [|by inversion Hx].
    apply list_elem_of_singleton in Hx. subst x. split; [done|]. eauto.
Qed.

End Close.

Section ValidateExceptions.

Lemma value_nested_ind (P : value -> Prop) :
  P VUndefined -> P VNull -> (∀ b, P (VBool b)) -> (∀ n, P (VNum n)) ->
  (∀ s, P (VStr s)) ->
  (∀ elems, Forall P elems -> P (VArr elems)) ->
  (∀ props, Forall (fun p => P (snd p)) props -> P (VObj props)) ->
  ∀ v, P v.
Proof.
  intros HU HN HB HNum HS HA HO.
  fix IH 1. intros [| |b|n|s|elems|props].
  - exact HU.
  - exact HN.
  - apply HB.
  - apply HNum.
  - apply HS.
  - apply HA. induction elems as [|x l IHl]; constructor; [apply IH|exact IHl].
  - apply HO. induction props as [|[k x] l IHl]; constructor;
      [apply IH|exact IHl].
Qed.

Lemma with_prop_throws_TypeError {B} (k : string)
    (found : value -> completion B) (missing : completion B)
    (props : list (string * value)) (ex : exn) :
  (∀ ex', missing = Throw ex' -> ex' = TypeError) ->
  Forall (fun p => ∀ ex', found (snd p) = Throw ex' -> ex' = TypeError) props ->
  with_prop k found missing props = Throw ex -> ex = TypeError.
Proof.
  intros Hmiss Hall. induction Hall as [|[k' t] props Ht _ IH]; simpl.
  - apply Hmiss.
  - destruct (String.eqb k' k); [apply Ht|apply IH].
Qed.

Lemma every_zip_throws_TypeError (f : value -> value -> completion bool)
    (ts vs : list value) (ex : exn) :
  Forall (fun t => ∀ v ex', f v t = Throw ex' -> ex' = TypeError) ts ->
  every_zip f ts vs = Throw ex -> ex = TypeError.
Proof.
  intros Hall. revert vs. induction Hall as [|t ts Ht _ IH]; intros vs;
    [done|].
  destruct vs as [|v vs]; [done|]. cbn [every_zip]. unfold and_then.
  destruct (f v t) as [[]|ex'] eqn:Hv; simpl; [apply IH|done|].
  intros [= <-]. by apply (Ht v).
Qed.

Lemma hasOwnProperty_throws_TypeError (x : value) (k : string) (ex : exn) :
  hasOwnProperty x k = Throw ex -> ex = TypeError.
Proof.
  destruct x as [| |b|n|s|l|props]; simpl; try congruence.
  destruct (has_key "hasOwnProperty" props); congruence.
Qed.

Lemma own_entries_throws_TypeError (x : value) (ex : exn) :
  own_entries x = Throw ex -> ex = TypeError.
Proof. destruct x; simpl; congruence. Qed.

Lemma validate_throws_TypeError_deep (type : value) :
  (∀ v ex, validate v type = Throw ex -> ex = TypeError)
  ∧ match type with
    | VArr ts =>
        Forall (fun t => ∀ v ex, validate v t = Throw ex -> ex = TypeError) ts
    | VObj ps =>
        Forall (fun p => ∀ v ex, validate v (snd p) = Throw ex
                                 -> ex = TypeError) ps
    | _ => True
    end.
Proof.
  induction type as [| |b|n|s|ts IH|fields IH] using value_nested_ind;
    try (split; [intros v ex; cbn [validate]; congruence|done]).
  - assert (Hts : Forall (fun t => ∀ v ex, validate v t = Throw ex
                                           -> ex = TypeError) ts).
    { eapply Forall_impl; [exact IH|]. by intros t [Ht _]. }
    split; [|done]. intros v ex. cbn [validate].
    destruct v as [| | | | |vs|]; try congruence.
    destruct (Nat.eqb _ _); [|congruence].
    apply every_zip_throws_TypeError.
    eapply Forall_impl; [exact Hts|]. intros t Ht v' ex'. apply Ht.
  - assert (Hps : Forall (fun p => ∀ v ex, validate v (snd p) = Throw ex
                                           -> ex = TypeError) fields).
    { eapply Forall_impl; [exact IH|]. by intros p [Hp _]. }
    split; [|done]. intros v ex. cbn [validate].
    destruct (hasOwnProperty (VObj fields) "$c") as [tagged|ex'] eqn:Htag;
      cbn [bind]; [|intros [= <-]; by eapply hasOwnProperty_throws_TypeError].
    assert (Hfield : ∀ k (x : value) ex',
              with_prop k (fun t => validate x t) (Normal false) fields
              = Throw ex' -> ex' = TypeError).
    { intros k x ex'. apply with_prop_throws_TypeError; [done|].
      eapply Forall_impl; [exact Hps|]. intros p Hp ex''. apply Hp. }
    destruct tagged.
    + destruct (isArray v && strict_eq_num _ 4).
      { apply every_throws_TypeError. intros x ex2 _. apply Hfield. }
      destruct (strict_eq_num _ 5 && isObject v).
      { unfold and_then, Object_keys, Object_values.
        destruct (own_entries v) as [es|ex'] eqn:Hes; cbn [bind];
          [|intros [= <-]; by eapply own_entries_throws_TypeError].
        destruct (every _ (map fst es)) as [[]|ex'] eqn:Hks; cbn [bind].
        - apply every_throws_TypeError. intros x ex2 _. apply Hfield.
        - done.
        - intros [= <-]. revert Hks. apply every_throws_TypeError.
          intros k ex2 _. apply Hfield. }
      destruct (strict_eq_num _ 6); [|done].
      apply with_prop_throws_TypeError; [congruence|].
      eapply Forall_impl; [exact IH|]. intros [k tt] [_ Htt] ex1.
      cbn [snd] in *.
      destruct tt as [| |b|n|s|ts|ps]; try congruence.
      * apply some_throws_TypeError. intros t ex2 Ht.
        rewrite Forall_forall in Htt. by apply Htt.
      * apply some_throws_TypeError. intros [k' t] ex2 Ht.
        rewrite Forall_forall in Htt. apply (Htt (k', t) Ht).
    + unfold and_then, Object_keys.
      destruct (every _ (map fst fields)) as [[]|ex'] eqn:Hfs; cbn [bind];
        [|done|].
      2:{ intros [= <-]. revert Hfs. apply every_throws_TypeError.
          intros k ex2 _. apply hasOwnProperty_throws_TypeError. }
      destruct (own_entries v) as [es|ex'] eqn:Hes; cbn [bind];
        [|intros [= <-]; by eapply own_entries_throws_TypeError].
      destruct (every _ (map fst es)) as [[]|ex'] eqn:Hks; cbn [bind];
        [|done|].
      2:{ intros [= <-]. revert Hks. apply every_throws_TypeError.
          intros k ex2 _. apply hasOwnProperty_throws_TypeError. }
      apply every_throws_TypeError. intros k ex2 _. apply Hfield.
Qed.

(** The exceptions of [validate] are [TypeError]s. *)
Lemma validate_throws_TypeError (v type : value) (ex : exn) :
  validate v type = Throw ex -> ex = TypeError.
Proof. apply validate_throws_TypeError_deep. Qed.

End ValidateExceptions.

Section Publish.

(** C9.  [publish] of a name that is an own property of the published
    table throws an [Error] to its caller, and the engine is as before;
    [publish] of another name, [__proto__] apart, records the definition
    under its name and sends one [publish] message with the name, the
    argument types and the return type.  This holds until a definition
    named [hasOwnProperty] is recorded: from then on every [publish]
    throws a [TypeError], that of a new name too, because the test calls
    [published.hasOwnProperty], which is now that definition.  And a
    definition named [__proto__] is announced but never recorded, so that
    publishing it again throws nothing. *)
Theorem publish_throws_on_duplicate_else_announces
    (lfd : LocalFunctionDefinition) (e : Engine) :
  (is_Some (published e !! "hasOwnProperty") ->
     publishFunction lfd e = Throw TypeError
     ∧ step e (EvPublish lfd) = e)
  ∧ (published e !! "hasOwnProperty" = None ->
     (is_Some (published e !! lfd_name lfd) ->
        publishFunction lfd e
        = Throw (Thrown ("Error: channel already has a published function called "
                         +:+ lfd_name lfd))
        ∧ step e (EvPublish lfd) = e)
     ∧ (published e !! lfd_name lfd = None -> lfd_name lfd ≠ "__proto__" ->
        ∃ e', publishFunction lfd e = Normal e'
          ∧ step e (EvPublish lfd) = e'
          ∧ published e' = <[lfd_name lfd := lfd]> (published e)
          ∧ wire e' = wire e ++ [MPublish (lfd_name lfd) (VArr (lfd_args lfd))
                                   (lfd_returns lfd)]
          ∧ beyond e' = beyond e)
     ∧ (published e !! lfd_name lfd = None -> lfd_name lfd = "__proto__" ->
        ∃ e', publishFunction lfd e = Normal e'
          ∧ published e' = published e
          ∧ wire e' = wire e ++ [MPublish (lfd_name lfd) (VArr (lfd_args lfd))
                                   (lfd_returns lfd)]
          ∧ beyond e' = true)).
Proof.
  split; [|intros Hfree; split; [|split]].
  - intros [old Hold]. unfold step, publishFunction. by rewrite Hold.
  - intros [old Hold]. unfold step, publishFunction. by rewrite Hfree, Hold.
  - intros Hnew Hname. unfold step, publishFunction. rewrite Hfree, Hnew.
    apply String.eqb_neq in Hname. rewrite Hname.
    eexists. repeat split; reflexivity.
  - intros Hnew Hname. unfold step, publishFunction. rewrite Hfree, Hnew.
    apply String.eqb_eq in Hname. rewrite Hname.
    eexists. repeat split; reflexivity.
Qed.

End Publish.

Section Dispatch.

(** C5.  An incoming [call] for a name that is not published is answered
    with the error [Unpublished Function: <name>], and one for a published
    name whose arguments [validate] rejects with the error
    [Invalid Arguments]; no local function is started.  But when
    [validate] throws on the arguments, as it does on [null] where a
    fixed structure object is declared (C3), the [catch] of the case
    answers with [Exception: ] and the text of the [TypeError].  And once
    a definition named [hasOwnProperty] is published, the test
    [published.hasOwnProperty(name)] is a [TypeError] outside the [try]:
    no [call] message is answered any more. *)
Theorem call_rejected_without_invocation
    (e : Engine) (nonce : Z) (name : string) (args : value) :
  (published e !! "hasOwnProperty" = None ->
     (published e !! name = None ->
        receive (MCall nonce name args) e
        = send (MError nonce ("Unpublished Function: " +:+ name)) e)
     ∧ (∀ lfd, published e !! name = Some lfd ->
          (validate args (VArr (lfd_args lfd)) = Normal false ->
             receive (MCall nonce name args) e
             = send (MError nonce "Invalid Arguments") e)
          ∧ (validate args (VArr (lfd_args lfd)) = Throw TypeError ->
             receive (MCall nonce name args) e
             = send (MError nonce
                       ("Exception: "
                        +:+ TypeError_toString args (VArr (lfd_args lfd)))) e))
     ∧ (invoked (receive (MCall nonce name args) e) ≠ invoked e ->
        ∃ lfd, published e !! name = Some lfd
               ∧ validate args (VArr (lfd_args lfd)) = Normal true))
  ∧ (is_Some (published e !! "hasOwnProperty") ->
     receive (MCall nonce name args) e = e).
Proof.
  split.
  - intros Hfree. split; [|split].
    + intros Hnone. unfold receive. by rewrite Hfree, Hnone.
    + intros lfd Hsome. split.
      * intros Hbad. unfold receive. by rewrite Hfree, Hsome, Hbad.
      * intros Hex. unfold receive. by rewrite Hfree, Hsome, Hex.
    + unfold receive. rewrite Hfree.
      destruct (published e !! name) as [lfd|]; [|done].
      destruct (validate args (VArr (lfd_args lfd))) as [[]|] eqn:Hv; simpl;
        intros Hinv; try done.
      exists lfd. done.
  - intros [old Hold]. unfold receive. by rewrite Hold.
Qed.

(** C6.  A [result] message whose nonce has an in-flight record is
    checked against the return type of the record.  When [validate]
    returns [true] the deferred result is completed with the value, and
    when it returns [false] the deferred result fails with
    [invalid return value from rpc <name>]; either way nothing is sent and
    the record is deleted.  But when [validate] throws, as it does on
    [null] where a fixed structure object is declared (C3), the exception
    leaves the handler: the deferred result is not settled and the record
    stays.  A [result] message whose nonce has no record changes
    nothing. *)
Theorem result_validated_against_record (e : Engine) (nonce : Z) (v : value) :
  (∀ rpc, inFlight e !! nonce = Some rpc ->
     let e' := receive (MResult nonce v) e in
     (validate v (rpc_returns rpc) = Normal true ->
        settled e' = settled e ++ settlement (rpc_call rpc) (Resolved v)
        ∧ wire e' = wire e
        ∧ inFlight e' = delete nonce (inFlight e))
     ∧ (validate v (rpc_returns rpc) = Normal false ->
        settled e' =
          settled e ++
            settlement (rpc_call rpc)
              (Failed ("invalid return value from rpc " +:+ rpc_name rpc))
        ∧ wire e' = wire e
        ∧ inFlight e' = delete nonce (inFlight e))
     ∧ (∀ ex, validate v (rpc_returns rpc) = Throw ex -> e' = e))
  ∧ (inFlight e !! nonce = None -> receive (MResult nonce v) e = e).
Proof.
  split.
  - intros rpc Hrpc e'. subst e'. unfold receive. rewrite Hrpc.
    split; [|split].
    + intros ->. destruct (rpc_call rpc); engine_simpl;
        rewrite ?app_nil_r; done.
    + intros ->. destruct (rpc_call rpc); engine_simpl;
        rewrite ?app_nil_r; done.
    + by intros ex ->.
  - intros Hnone. unfold receive. by rewrite Hnone.
Qed.

End Dispatch.

Section Expect.






(** C1.  The code at the call [alpha.add(1, 9)] of the test
    [can wait for publication]: the call stores its waiter and sends
    nothing; the [publish] message is processed with the wire still empty;
    the [expect] message is sent only when the resumed wrapper runs,
    just before its [call] message. *)
Theorem expect_is_sent_after_publish :
  wire waiting_add = []
  ∧ expected waiting_add !! "add" = Some [add_waiter]
  ∧ wire (receive add_published waiting_add) = []
  ∧ microtasks (receive add_published waiting_add) = [add_waiter]
  ∧ wire (tick (receive add_published waiting_add))
    = [MExpect "add"; MCall 1 "add" (VArr [VNum 1; VNum 9])].
Proof. repeat split; reflexivity. Qed.

End Expect.

Section AfterClose.

Lemma close_quiescent (e : Engine) : quiescent (close e).
Proof.
  split; [apply close_inFlight|].
  intros name rf. destruct (close_frame e) as (_ & _ & -> & _).
  rewrite lookup_fmap. destruct (_ !! name); simpl; congruence.
Qed.

(** Once no call is in flight and every remote function is inert, this
    stays so until a [publish] message is received or a function that the
    proxy returned earlier is called. *)
Lemma step_quiescent (e : Engine) (ev : Event) :
  keeps_quiet ev = true -> quiescent e -> quiescent (step e ev).
Proof.
  intros Hev [Hfl Hrf].
  assert (Hinert : ∀ name n r, remoteFunctions e !! name ≠ Some (Live n r)).
  { intros name n r Hn. by specialize (Hrf _ _ Hn). }
  step_leaves ev; try discriminate; try (by split);
    try (by rewrite Hfl, lookup_empty in *);
    try (by exfalso; eapply Hinert).
  all: apply close_quiescent.
Qed.

Lemma run_quiescent (evs : list Event) (e : Engine) :
  forallb keeps_quiet evs = true -> quiescent e -> quiescent (run e evs).
Proof.
  revert e. induction evs as [|ev evs IH]; intros e Hevs Hq; [done|].
  simpl in Hevs. apply andb_prop in Hevs as [Hev Hevs].
  rewrite run_cons. apply IH; [done|]. by apply step_quiescent.
Qed.

(** Nothing opens a channel again. *)
Lemma step_stays_closed (e : Engine) (ev : Event) :
  open e = false -> open (step e ev) = false.
Proof.
  intros Hopen. step_leaves ev; try done.
  all: apply close_open.
Qed.

Lemma run_stays_closed (evs : list Event) (e : Engine) :
  open e = false -> open (run e evs) = false.
Proof.
  revert e. induction evs as [|ev evs IH]; intros e Hopen; [done|].
  rewrite run_cons. apply IH. by apply step_stays_closed.
Qed.

(** The result of a local function is dropped while the channel is
    closed. *)
Lemma fn_returned_closed (nonce : Z) (result : value) (e : Engine) :
  open e = false -> wire (fn_returned nonce result e) = wire e.
Proof.
  intros Hopen. unfold fn_returned. case_bool_decide; [|done].
  cbn [open set_running]. rewrite Hopen. done.
Qed.

(** What the close handler achieves.  It fails every deferred result of
    the in-flight table with [Connection Closed], these and no others; it
    leaves the table empty and the channel marked not open, for good, so
    that the result of a local function that completes later is not sent.
    From then on, in an execution that stays within the embedding, a
    [result] or [error] message changes nothing for as long as no
    [publish] message is received and no remote function that the proxy
    returned before the close is called. *)
Lemma close_fails_pending_calls (e : Engine) :
  let e' := close e in
  (∃ failures,
      settled e' = settled e ++ failures
      ∧ (∀ n rpc id, inFlight e !! n = Some rpc -> rpc_call rpc = Some id ->
           (id, Failed "Connection Closed") ∈ failures)
      ∧ (∀ x, x ∈ failures ->
           snd x = Failed "Connection Closed"
           ∧ ∃ n rpc, inFlight e !! n = Some rpc
                      ∧ rpc_call rpc = Some (fst x)))
  ∧ inFlight e' = ∅
  ∧ open e' = false
  ∧ (∀ evs nonce result,
       open (run e' evs) = false
       ∧ wire (fn_returned nonce result (run e' evs)) = wire (run e' evs))
  ∧ (∀ evs m,
       forallb keeps_quiet evs = true ->
       beyond (run e' evs) = false ->
       is_completion m = true ->
       receive m (run e' evs) = run e' evs).
Proof.
  intros e'. subst e'. split; [|split; [|split; [|split]]].
  - apply close_failures.
  - apply close_inFlight.
  - apply close_open.
  - intros evs nonce result.
    assert (Hclosed : open (run (close e) evs) = false)
      by apply run_stays_closed, close_open.
    split; [done|]. by apply fn_returned_closed.
  - intros evs m Hevs _ Hm. apply receive_completion_empty; [done|].
    apply run_quiescent; [done|]. apply close_quiescent.
Qed.

(** C2.  The close handler replaces the functions in the table of remote
    functions, not the functions that the proxy has returned: a working
    remote function that the application got from the proxy before the
    close still works after it.  Called on the closed channel, it sends
    its [call] message and files its record, although the proxy now
    returns the inert function for its name; the [result] message for its
    nonce completes the call, and an [error] message fails it. *)
Theorem call_after_close_is_settled (e : Engine) (name : string)
    (returns : value) (id : CallId) (args : list value) (v : value) :
  name ≠ "publish" ->
  remoteFunctions e !! name = Some (Live name returns) ->
  validate v returns = Normal true ->
  let f := get e name in
  let e1 := call_function f id args (close e) in
  f = CapRemote (Live name returns)
  ∧ get (close e) name = CapRemote Inert
  ∧ open e1 = false
  ∧ wire e1 = wire e ++ [MCall (counter e) name (VArr args)]
  ∧ inFlight e1
    = {[ counter e := {| rpc_name := name; rpc_returns := returns;
                         rpc_call := Some id |} ]}
  ∧ settled (receive (MResult (counter e) v) e1)
    = settled (close e) ++ [(id, Resolved v)]
  ∧ ∀ message,
      settled (receive (MError (counter e) message) e1)
      = settled (close e) ++ [(id, Failed message)].
Proof.
  intros Hname Hrf Hv f e1.
  apply String.eqb_neq in Hname.
  assert (Hf : f = CapRemote (Live name returns)).
  { subst f. unfold get. by rewrite Hname, Hrf. }
  assert (He1 : e1 = invoke_remote (Live name returns) (Some id) args (close e)).
  { subst e1. by rewrite Hf. }
  destruct (close_frame e) as (Hopen & Hc & Hrfs & _ & _ & Hw & _).
  pose proof (close_inFlight e) as Hfl.
  assert (Hrec : inFlight e1
                 = {[ counter e := {| rpc_name := name; rpc_returns := returns;
                                      rpc_call := Some id |} ]}).
  { rewrite He1. unfold invoke_remote. engine_simpl.
    by rewrite Hfl, Hc, insert_empty. }
  assert (Hset : settled e1 = settled (close e)) by (by rewrite He1).
  split; [done|]. split; [|split; [|split; [|split; [done|split]]]].
  - unfold get. by rewrite Hname, Hrfs, lookup_fmap, Hrf.
  - by rewrite He1.
  - rewrite He1. unfold invoke_remote. engine_simpl. by rewrite Hw, Hc.
  - unfold receive. rewrite Hrec, lookup_singleton_eq. engine_simpl.
    rewrite Hv. engine_simpl. by rewrite Hset.
  - intros message. unfold receive. rewrite Hrec, lookup_singleton_eq.
    engine_simpl. by rewrite Hset.
Qed.

(** The same after a [publish] message that is received on the closed
    channel: it installs a working remote function; a call to it goes in
    flight, and the [result] message for its nonce completes it. *)
Lemma result_after_close_settles_call :
  open closed_then_called = false
  ∧ settled closed_then_called = [(7%nat, Failed "Connection Closed")]
  ∧ settled (receive (MResult 2 (VNum (-2))) closed_then_called)
    = [(7%nat, Failed "Connection Closed"); (8%nat, Resolved (VNum (-2)))].
Proof. repeat split; reflexivity. Qed.

End AfterClose.

Section Nonces.

Lemma call_nonces_snoc (ms : list Message) (m : Message) :
  call_nonces (ms ++ [m]) =
    call_nonces ms ++ match m with MCall n _ _ => [n] | _ => [] end.
Proof.
  unfold call_nonces. rewrite omap_app. f_equal. by destruct m.
Qed.

Lemma close_no_draw (e : Engine) : no_draw e (close e).
Proof.
  repeat split.
  - apply close_counter.
  - by rewrite close_wire.
  - intros n. right. by rewrite close_inFlight, lookup_empty.
Qed.

(** Closes [no_draw] goals between states that differ by sent messages
    other than [call], by removed records and by fields the relation does
    not read. *)
Ltac no_draw_frame :=
  repeat split; engine_simpl; rewrite ?call_nonces_snoc, ?app_nil_r; auto;
  try (intros ?n;
       match goal with
       | |- context [delete ?k _ !! ?n] =>
           destruct (decide (n = k)) as [->|?];
           [right; apply lookup_delete_eq|left; by apply lookup_delete_ne]
       end).

Ltac draws_frame :=
  unfold draws; engine_simpl; rewrite ?call_nonces_snoc, ?app_nil_r; eauto.

(** Every step either draws no nonce or draws the value of the counter. *)
Lemma step_draws (e : Engine) (ev : Event) :
  no_draw e (step e ev) ∨ draws e (step e ev).
Proof.
  step_leaves ev;
    first [left; solve [no_draw_frame]
          |right; solve [draws_frame]
          |left; apply close_no_draw].
Qed.

Lemma step_counter_mono (e : Engine) (ev : Event) :
  counter e ≤ counter (step e ev).
Proof. destruct (step_draws e ev) as [(-> & _)|(-> & _)]; lia. Qed.

Lemma nonce_invariant_fresh : nonce_invariant fresh.
Proof.
  split; [|split]; [done..|].
  intros n [rpc Hn]. cbn [inFlight fresh] in Hn. by rewrite lookup_empty in Hn.
Qed.

Lemma nonce_invariant_step (e : Engine) (ev : Event) :
  nonce_invariant e -> nonce_invariant (step e ev).
Proof.
  intros (Hc & Hw & Hf).
  destruct (step_draws e ev) as [(Hc' & Hw' & Hf')|(Hc' & Hw' & rpc & Hf')].
  - split; [|split]; rewrite ?Hc', ?Hw'; try done.
    intros n [rpc' Hn]. destruct (Hf' n) as [Heq|Heq]; [|congruence].
    apply Hf. rewrite <- Heq. eauto.
  - split; [|split]; rewrite ?Hc', ?Hw'; try lia.
    + rewrite Hw. replace (counter e + 1 - 1) with ((counter e - 1) + 1) by lia.
      rewrite seqZ_app by lia. f_equal.
      replace (1 + (counter e - 1)) with (counter e) by lia.
      unfold seqZ. simpl. done.
    + intros n Hn. rewrite Hf' in Hn.
      destruct (decide (n = counter e)) as [->|Hne]; [lia|].
      rewrite lookup_insert_ne in Hn by done. apply Hf in Hn. lia.
Qed.

Lemma nonce_invariant_run (evs : list Event) (e : Engine) :
  nonce_invariant e -> nonce_invariant (run e evs).
Proof.
  revert e. induction evs as [|ev evs IH]; intros e He; [done|].
  rewrite run_cons. apply IH. by apply nonce_invariant_step.
Qed.

(** The slot of the next nonce is free. *)
Lemma next_nonce_free (evs : list Event) :
  inFlight (run fresh evs) !! counter (run fresh evs) = None.
Proof.
  destruct (nonce_invariant_run evs fresh nonce_invariant_fresh)
    as (_ & _ & Hf).
  destruct (inFlight (run fresh evs) !! counter (run fresh evs)) eqn:Hn;
    [|done].
  assert (Hlt : 1 ≤ counter (run fresh evs) < counter (run fresh evs))
    by (apply Hf; rewrite Hn; eauto).
  lia.
Qed.

(** A record filed under a nonce already drawn is never replaced: later
    steps remove it or leave it. *)
Lemma run_keeps_or_removes (evs : list Event) (e : Engine) (n : Z) :
  n < counter e ->
  n < counter (run e evs)
  ∧ (inFlight (run e evs) !! n = inFlight e !! n
     ∨ inFlight (run e evs) !! n = None).
Proof.
  revert e. induction evs as [|ev evs IH]; intros e Hn; [auto|].
  rewrite run_cons.
  assert (Hstep : n < counter (step e ev)
                  ∧ (inFlight (step e ev) !! n = inFlight e !! n
                     ∨ inFlight (step e ev) !! n = None)).
  { destruct (step_draws e ev) as [(Hc & _ & Hf)|(Hc & _ & rpc & Hf)].
    - split; [lia|]. apply Hf.
    - split; [lia|]. left. rewrite Hf. apply lookup_insert_ne. lia. }
  destruct Hstep as [Hn' Hf]. destruct (IH _ Hn') as [Hn'' Hf'].
  split; [done|].
  destruct Hf' as [Heq|Heq]; [|by right].
  rewrite Heq. exact Hf.
Qed.

End Nonces.

Section Correlation.

Lemma receive_result_other (e : Engine) (n n' : Z) (v : value) :
  n' ≠ n -> inFlight (receive (MResult n v) e) !! n' = inFlight e !! n'.
Proof.
  intros Hne. unfold receive. destruct (inFlight e !! n) as [rpc|]; [|done].
  destruct (validate v (rpc_returns rpc)) as [[]|]; [..|done];
    destruct (rpc_call rpc); engine_simpl; by apply lookup_delete_ne.
Qed.

Lemma receive_error_other (e : Engine) (n n' : Z) (message : string) :
  n' ≠ n -> inFlight (receive (MError n message) e) !! n' = inFlight e !! n'.
Proof.
  intros Hne. unfold receive. destruct (inFlight e !! n) as [rpc|]; [|done].
  destruct (rpc_call rpc); engine_simpl; by apply lookup_delete_ne.
Qed.

Lemma settled_settle_held (p : option CallId) (o : Outcome) (e : Engine) :
  settled (settle_held p o e) = settled e ++ settlement p o.
Proof. destruct p; cbn; by rewrite ?app_nil_r. Qed.

(** C4.  The counter starts at 1 and no step lowers it.  In every
    execution the nonces of the [call] messages sent are 1, 2, ...,
    [counter - 1] in this order, so none is used twice, and the place of
    the next nonce in the in-flight table is free.  An outbound call takes
    the value of the counter as its nonce, and for the rest of the
    execution the record under that nonce is the record of this call or is
    gone.  An [error] message with the nonce of a record fails the
    deferred result of that record, and a [result] message with it
    completes or fails the deferred result of that record when [validate]
    returns; both leave the records of all other nonces as they are.  But
    a [result] message on whose value [validate] throws (C3) settles
    nothing: the call of its nonce stays in flight. *)
Theorem nonces_fresh_and_results_correlated :
  counter fresh = 1
  ∧ (∀ e ev, counter e ≤ counter (step e ev))
  ∧ (∀ evs,
       call_nonces (wire (run fresh evs)) = seqZ 1 (counter (run fresh evs) - 1)
       ∧ NoDup (call_nonces (wire (run fresh evs)))
       ∧ inFlight (run fresh evs) !! counter (run fresh evs) = None)
  ∧ (∀ e name returns p args,
       let rpc := {| rpc_name := name; rpc_returns := returns;
                     rpc_call := p |} in
       let e1 := invoke_remote (Live name returns) p args e in
       wire e1 = wire e ++ [MCall (counter e) name (VArr args)]
       ∧ counter e1 = counter e + 1
       ∧ inFlight e1 !! counter e = Some rpc
       ∧ ∀ evs, inFlight (run e1 evs) !! counter e = Some rpc
                ∨ inFlight (run e1 evs) !! counter e = None)
  ∧ (∀ e n rpc, inFlight e !! n = Some rpc ->
       (∀ message,
          settled (receive (MError n message) e)
          = settled e ++ settlement (rpc_call rpc) (Failed message))
       ∧ (∀ v, validate v (rpc_returns rpc) = Normal true ->
            settled (receive (MResult n v) e)
            = settled e ++ settlement (rpc_call rpc) (Resolved v))
       ∧ (∀ v, validate v (rpc_returns rpc) = Normal false ->
            settled (receive (MResult n v) e)
            = settled e ++
                settlement (rpc_call rpc)
                  (Failed ("invalid return value from rpc " +:+ rpc_name rpc)))
       ∧ (∀ v, validate v (rpc_returns rpc) = Throw TypeError ->
            receive (MResult n v) e = e)
       ∧ (∀ n' v message, n' ≠ n ->
            inFlight (receive (MResult n v) e) !! n' = inFlight e !! n'
            ∧ inFlight (receive (MError n message) e) !! n'
              = inFlight e !! n')).
Proof.
  split; [done|]. split; [apply step_counter_mono|]. split; [|split].
  - intros evs.
    destruct (nonce_invariant_run evs fresh nonce_invariant_fresh)
      as (Hc & Hw & Hf).
    split; [done|]. split.
    + rewrite Hw. apply NoDup_seqZ.
    + apply next_nonce_free.
  - intros e name returns p args rpc e1. subst e1.
    assert (Hins : inFlight (invoke_remote (Live name returns) p args e)
                     !! counter e = Some rpc).
    { unfold invoke_remote. engine_simpl. apply lookup_insert_eq. }
    split; [done|]. split; [done|]. split; [done|]. intros evs.
    destruct (run_keeps_or_removes evs
                (invoke_remote (Live name returns) p args e) (counter e))
      as [_ [Heq|Heq]].
    + unfold invoke_remote. engine_simpl. lia.
    + left. by rewrite Heq.
    + by right.
  - intros e n rpc Hrpc. split; [|split; [|split; [|split]]].
    + intros message. unfold receive. rewrite Hrpc. engine_simpl.
      apply settled_settle_held.
    + intros v Hv. unfold receive. rewrite Hrpc, Hv. engine_simpl.
      apply settled_settle_held.
    + intros v Hv. unfold receive. rewrite Hrpc, Hv. engine_simpl.
      apply settled_settle_held.
    + intros v Hv. unfold receive. by rewrite Hrpc, Hv.
    + intros n' v message Hne.
      split; [by apply receive_result_other|by apply receive_error_other].
Qed.

End Correlation.

Section ExpectOrder.

Lemma expect_invariant_fresh : expect_invariant fresh.
Proof.
  split; [|split].
  - intros name ws w Hws. cbn [expected fresh] in Hws.
    by rewrite lookup_empty in Hws.
  - intros w Hw. by inversion Hw.
  - intros name Hm. by inversion Hm.
Qed.

Lemma expect_invariant_weaken (e e' : Engine) :
  expect_invariant e ->
  expected e' = expected e ->
  (∀ w, w ∈ microtasks e' -> w ∈ microtasks e) ->
  (∀ name, MExpect name ∈ wire e' -> MExpect name ∈ wire e) ->
  (∀ k, is_Some (remoteFunctions e !! k) -> is_Some (remoteFunctions e' !! k)) ->
  expect_invariant e'.
Proof.
  intros (Hq & Hm & Hw) Hex Hmt Hwire Hrf. split; [|split].
  - rewrite Hex. exact Hq.
  - intros w Hin. apply Hrf, Hm, Hmt, Hin.
  - intros name Hin. apply Hrf, Hw, Hwire, Hin.
Qed.

(** Closes the goals of states that differ from one with the invariant by
    messages other than [expect], by new remote functions and by fields
    the invariant does not read. *)
Ltac expect_keep :=
  eapply expect_invariant_weaken;
  [eassumption
  |reflexivity
  |engine_simpl; auto
  |engine_simpl; intros ? ?Hin; wire_cases Hin; auto
  |engine_simpl; intros ?k ?Hk; rewrite ?lookup_insert_is_Some'; auto].

Lemma expect_invariant_enqueue (e : Engine) (prop : string) (ws : list Waiter)
    (w : Waiter) :
  expect_invariant e ->
  w_prop w = prop ->
  (∀ w', w' ∈ ws -> w_prop w' = prop) ->
  expect_invariant (set_expected (<[prop := ws ++ [w]]> (expected e)) e).
Proof.
  intros (Hq & Hm & Hw) Hprop Hws. split; [|split]; engine_simpl; auto.
  intros name ws' w' Hlook Hin.
  destruct (decide (prop = name)) as [->|Hne].
  - rewrite lookup_insert_eq in Hlook. inversion Hlook; subst ws'.
    apply elem_of_app in Hin as [Hin|Hin]; [auto|].
    apply list_elem_of_singleton in Hin. by subst w'.
  - rewrite lookup_insert_ne in Hlook by done. eauto.
Qed.

Lemma expect_invariant_install (e : Engine) (name : string) (returns : value)
    (ws : list Waiter) :
  expect_invariant e ->
  expected e !! name = Some ws ->
  expect_invariant
    (set_microtasks (microtasks e ++ ws)
       (set_remoteFunctions (<[name := Live name returns]> (remoteFunctions e))
          e)).
Proof.
  intros (Hq & Hm & Hw) Hws. split; [|split]; engine_simpl; auto.
  - intros w [Hin|Hin]%elem_of_app; apply lookup_insert_is_Some'.
    + right. auto.
    + left. symmetry. by apply (Hq name ws).
  - intros k Hin. apply lookup_insert_is_Some'. right. auto.
Qed.

Lemma expect_invariant_close (e : Engine) :
  expect_invariant e -> expect_invariant (close e).
Proof.
  intros He. destruct (close_frame e)
    as (_ & _ & Hrf & _ & Hex & Hwi & _ & _ & Hmi & _).
  eapply expect_invariant_weaken; [exact He|done|..].
  - by rewrite Hmi.
  - by rewrite Hwi.
  - intros k [rf Hk]. rewrite Hrf, lookup_fmap, Hk. simpl. eauto.
Qed.

Lemma expect_invariant_resume (e : Engine) (w : Waiter) (rest : list Waiter)
    (e' : Engine) :
  expect_invariant e ->
  microtasks e = w :: rest ->
  expected e' = expected e ->
  microtasks e' = rest ->
  (∀ name, MExpect name ∈ wire e' ->
     MExpect name ∈ wire e ∨ name = w_prop w) ->
  remoteFunctions e' = remoteFunctions e ->
  expect_invariant e'.
Proof.
  intros (Hq & Hm & Hw) Hmt Hex Hmt' Hwire Hrf. split; [|split].
  - rewrite Hex. exact Hq.
  - rewrite Hmt', Hrf. intros w' Hin. apply Hm. rewrite Hmt. by right.
  - rewrite Hrf. intros name Hin. destruct (Hwire _ Hin) as [Hold| ->]; [auto|].
    apply Hm. rewrite Hmt. by left.
Qed.

Lemma expect_invariant_step (e : Engine) (ev : Event) :
  expect_invariant e -> expect_invariant (step e ev).
Proof.
  intros He.
  step_leaves ev; try done; try (by expect_keep);
    try (by apply expect_invariant_close);
    try (by apply expect_invariant_install).
  all: try (apply expect_invariant_enqueue; [done|done|];
            first [intros ? ?Hin; by eapply (proj1 He)
                  |intros ? ?Hin; by inversion Hin]).
  all: try (eapply (expect_invariant_resume e); [done..| |done];
            engine_simpl; intros ? ?Hin; wire_cases Hin; auto).
  all: apply (expect_invariant_enqueue _ _ []); [done|done|];
    intros ? ?Hin; by inversion Hin.
Qed.

Lemma expect_invariant_run (evs : list Event) (e : Engine) :
  expect_invariant e -> expect_invariant (run e evs).
Proof.
  revert e. induction evs as [|ev evs IH]; intros e He; [done|].
  rewrite run_cons. apply IH. by apply expect_invariant_step.
Qed.

(** A remote function is installed by a received [publish] message and
    by nothing else. *)
Lemma step_installs_on_publish (e : Engine) (ev : Event) (name : string) :
  is_Some (remoteFunctions (step e ev) !! name) ->
  is_Some (remoteFunctions e !! name)
  ∨ ∃ args returns, ev = EvReceive (MPublish name args returns).
Proof.
  step_leaves ev; auto;
    try (rewrite lookup_insert_is_Some'; intros [->|?]; by eauto).
  all: destruct (close_frame e) as (_ & _ & -> & _);
    rewrite lookup_fmap, fmap_is_Some; auto.
Qed.

Lemma run_installs_on_publish (evs : list Event) (e : Engine) (name : string) :
  is_Some (remoteFunctions (run e evs) !! name) ->
  is_Some (remoteFunctions e !! name)
  ∨ ∃ args returns, EvReceive (MPublish name args returns) ∈ evs.
Proof.
  revert e. induction evs as [|ev evs IH]; intros e Hrun; [auto|].
  rewrite run_cons in Hrun.
  destruct (IH _ Hrun) as [Hstep|(args & returns & Hin)].
  - destruct (step_installs_on_publish _ _ _ Hstep)
      as [He|(args & returns & ->)]; [auto|].
    right. exists args, returns. by left.
  - right. exists args, returns. by right.
Qed.

(** In every execution an [expect] message for a name is on the wire only
    if the remote function of that name is installed, that is, only after
    a [publish] message for the name has been processed. *)
Lemma expect_follows_publish (evs : list Event) (name : string) :
  MExpect name ∈ wire (run fresh evs) ->
  is_Some (remoteFunctions (run fresh evs) !! name)
  ∧ ∃ args returns, EvReceive (MPublish name args returns) ∈ evs.
Proof.
  intros Hin.
  destruct (expect_invariant_run evs fresh expect_invariant_fresh)
    as (_ & _ & Hw).
  pose proof (Hw _ Hin) as Hrf. split; [done|].
  destruct (run_installs_on_publish _ _ _ Hrf) as [Hfresh|Hpub]; [|done].
  cbn [remoteFunctions fresh] in Hfresh. rewrite lookup_empty in Hfresh.
  by destruct Hfresh.
Qed.

End ExpectOrder.

(** * Further properties of the channel engine *)

Section Beyond.

(** A state that the embedding does not represent stays so. *)
Lemma step_stays_beyond (e : Engine) (ev : Event) :
  beyond e = true -> beyond (step e ev) = true.
Proof.
  intros Hb. step_leaves ev; try done.
  all: by destruct (close_frame e) as (_ & _ & _ & _ & _ & _ & _ & _ & _ & ->).
Qed.

Lemma run_stays_beyond (evs : list Event) (e : Engine) :
  beyond e = true -> beyond (run e evs) = true.
Proof.
  revert e. induction evs as [|ev evs IH]; intros e Hb; [done|].
  rewrite run_cons. by apply IH, step_stays_beyond.
Qed.

Lemma within_prefix (e : Engine) (evs : list Event) (ev : Event) :
  beyond (run e (evs ++ [ev])) = false -> beyond (run e evs) = false.
Proof.
  rewrite run_snoc. intros Hb.
  destruct (beyond (run e evs)) eqn:Hpre; [|done].
  by rewrite step_stays_beyond in Hb.
Qed.

End Beyond.

Section Published.

Lemma step_published (e : Engine) (ev : Event) :
  published (step e ev) = published e
  ∨ ∃ lfd, ev = EvPublish lfd
           ∧ published e !! lfd_name lfd = None
           ∧ lfd_name lfd ≠ "__proto__"
           ∧ published (step e ev) = <[lfd_name lfd := lfd]> (published e).
Proof.
  step_leaves ev; eauto.
  - right. eexists. split; [done|]. split; [done|].
    split; [by apply String.eqb_neq|done].
  - left. apply close_frame.
Qed.

Lemma step_keeps_published (e : Engine) (ev : Event) (name : string)
    (lfd : LocalFunctionDefinition) :
  published e !! name = Some lfd -> published (step e ev) !! name = Some lfd.
Proof.
  intros Hp. destruct (step_published e ev) as [->|(new & _ & Hnew & _ & ->)];
    [done|].
  rewrite lookup_insert_ne; [done|]. congruence.
Qed.

Lemma run_keeps_published (evs : list Event) (e : Engine) (name : string)
    (lfd : LocalFunctionDefinition) :
  published e !! name = Some lfd -> published (run e evs) !! name = Some lfd.
Proof.
  revert e. induction evs as [|ev evs IH]; intros e Hp; [done|].
  rewrite run_cons. by apply IH, step_keeps_published.
Qed.

Lemma published_origin (evs : list Event) (name : string)
    (lfd : LocalFunctionDefinition) :
  published (run fresh evs) !! name = Some lfd ->
  lfd_name lfd = name ∧ name ≠ "__proto__" ∧ EvPublish lfd ∈ evs.
Proof.
  induction evs as [|ev evs IH] using rev_ind.
  - cbn [run foldl published fresh]. by rewrite lookup_empty.
  - rewrite run_snoc. intros Hp.
    destruct (step_published (run fresh evs) ev)
      as [Heq|(new & -> & Hnew & Hproto & Heq)]; rewrite Heq in Hp.
    + destruct (IH Hp) as (? & ? & ?). split; [done|]. split; [done|].
      apply elem_of_app. by left.
    + destruct (decide (lfd_name new = name)) as [Hname|Hname].
      * rewrite <- Hname, lookup_insert_eq in Hp. inversion Hp; subst.
        split; [done|]. split; [done|]. apply elem_of_app. right. by left.
      * rewrite lookup_insert_ne in Hp by done.
        destruct (IH Hp) as (? & ? & ?). split; [done|]. split; [done|].
        apply elem_of_app. by left.
Qed.

(** X7.  An own property of the published table is never replaced or
    removed: a definition that is in the table is under its name for the
    rest of the execution.  Every entry of the table is filed under the
    name of its definition and was put there by a [publish] call of the
    application; no entry is filed under [__proto__]. *)
Theorem published_definitions_are_permanent :
  (∀ e evs name lfd,
     published e !! name = Some lfd ->
     published (run e evs) !! name = Some lfd)
  ∧ (∀ evs name lfd,
       published (run fresh evs) !! name = Some lfd ->
       lfd_name lfd = name ∧ name ≠ "__proto__" ∧ EvPublish lfd ∈ evs).
Proof.
  split.
  - intros e evs name lfd. apply run_keeps_published.
  - apply published_origin.
Qed.

(** What the engine has announced: a function it has published, or the
    method of [Object.prototype] that an [expect] message named. *)
Lemma announced_invariant (evs : list Event) (name : string)
    (args returns : value) :
  beyond (run fresh evs) = false ->
  MPublish name args returns ∈ wire (run fresh evs) ->
  (∃ lfd, published (run fresh evs) !! name = Some lfd
          ∧ args = VArr (lfd_args lfd) ∧ returns = lfd_returns lfd)
  ∨ (args = VUndefined ∧ returns = VUndefined
     ∧ ∃ k, is_method k = true ∧ name = method_name k
            ∧ EvReceive (MExpect k) ∈ evs).
Proof.
  revert name args returns.
  induction evs as [|ev evs IH] using rev_ind; intros name0 args0 returns0.
  - cbn [run foldl wire fresh]. intros _ Hin. by inversion Hin.
  - intros Hb. pose proof (within_prefix _ _ _ Hb) as Hpre.
    rewrite run_snoc in Hb |- *. intros Hin.
    assert (Hold : MPublish name0 args0 returns0 ∈ wire (run fresh evs) ->
              (∃ lfd, published (step (run fresh evs) ev) !! name0 = Some lfd
                      ∧ args0 = VArr (lfd_args lfd)
                      ∧ returns0 = lfd_returns lfd)
              ∨ (args0 = VUndefined ∧ returns0 = VUndefined
                 ∧ ∃ k, is_method k = true ∧ name0 = method_name k
                        ∧ EvReceive (MExpect k) ∈ evs ++ [ev])).
    { intros Hw. destruct (IH _ _ _ Hpre Hw)
        as [(lfd & Hp & ? & ?)|(? & ? & k & ? & ? & ?)].
      - left. exists lfd. split; [by apply step_keeps_published|done].
      - right. split; [done|]. split; [done|]. exists k.
        split; [done|]. split; [done|]. apply elem_of_app. by left. }
    pose proof (published_origin evs) as Horigin.
    revert Hb Hin Hold Horigin. generalize (run fresh evs). clear IH Hpre.
    intros e.
    step_leaves ev; intros Hb Hin Hold Horigin; wire_cases Hin; auto;
      try discriminate.
    + left. eexists. split; [apply lookup_insert_eq|done].
    + left. match goal with H : published e !! _ = Some ?l |- _ =>
        destruct (Horigin _ _ H) as (<- & _); exists l end.
      done.
    + right. split; [done|]. split; [done|]. eexists. split; [eassumption|].
      split; [done|]. apply elem_of_app. right. by left.
    + rewrite close_wire in Hin. auto.
Qed.

(** X9.  In an execution that stays within the embedding, every [publish]
    message the engine has sent either announces a function that is in
    its published table, with the argument types and the return type of
    the definition, or answers an [expect] message that named a method of
    [Object.prototype], and then carries the name of the method and
    neither argument types nor return type. *)
Theorem only_published_functions_announced (evs : list Event)
    (name : string) (args returns : value) :
  beyond (run fresh evs) = false ->
  MPublish name args returns ∈ wire (run fresh evs) ->
  (∃ lfd, published (run fresh evs) !! name = Some lfd
          ∧ lfd_name lfd = name
          ∧ args = VArr (lfd_args lfd) ∧ returns = lfd_returns lfd)
  ∨ (args = VUndefined ∧ returns = VUndefined
     ∧ ∃ k, is_method k = true ∧ name = method_name k
            ∧ EvReceive (MExpect k) ∈ evs).
Proof.
  intros Hb Hin.
  destruct (announced_invariant _ _ _ _ Hb Hin) as [(lfd & Hp & ? & ?)|Hm];
    [left|by right].
  exists lfd. split; [done|]. split; [|done].
  by destruct (published_origin _ _ _ Hp).
Qed.

End Published.

Section Handles.

Lemma step_remoteFunctions (e : Engine) (ev : Event) (name : string) :
  remoteFunctions (step e ev) !! name = remoteFunctions e !! name
  ∨ (remoteFunctions e !! name = None
     ∧ ∃ args returns, ev = EvReceive (MPublish name args returns)
         ∧ remoteFunctions (step e ev) !! name = Some (Live name returns))
  ∨ (ev = EvClose
     ∧ remoteFunctions (step e ev) !! name
       = (fun _ => Inert) <$> remoteFunctions e !! name).
Proof.
  step_leaves ev; auto.
  - destruct (decide (name0 = name)) as [->|Hne].
    + right. left. split; [done|]. eexists _, _. split; [done|].
      apply lookup_insert_eq.
    + left. by apply lookup_insert_ne.
  - destruct (decide (name0 = name)) as [->|Hne].
    + right. left. split; [done|]. eexists _, _. split; [done|].
      apply lookup_insert_eq.
    + left. by apply lookup_insert_ne.
  - right. right. split; [done|].
    destruct (close_frame e) as (_ & _ & -> & _). apply lookup_fmap.
Qed.

Lemma run_keeps_live_or_inert (evs : list Event) (e : Engine) (name : string)
    (returns : value) :
  remoteFunctions e !! name = Some (Live name returns)
  ∨ remoteFunctions e !! name = Some Inert ->
  remoteFunctions (run e evs) !! name = Some (Live name returns)
  ∨ remoteFunctions (run e evs) !! name = Some Inert.
Proof.
  revert e. induction evs as [|ev evs IH]; intros e He; [done|].
  rewrite run_cons. apply IH.
  destruct (step_remoteFunctions e ev name)
    as [->|[(Hnone & _)|(_ & ->)]]; [done|..].
  - destruct He; congruence.
  - destruct He as [-> | ->]; auto.
Qed.

Lemma run_keeps_inert (evs : list Event) (e : Engine) (name : string) :
  remoteFunctions e !! name = Some Inert ->
  remoteFunctions (run e evs) !! name = Some Inert.
Proof.
  revert e. induction evs as [|ev evs IH]; intros e He; [done|].
  rewrite run_cons. apply IH.
  destruct (step_remoteFunctions e ev name)
    as [->|[(Hnone & _)|(_ & ->)]]; [done|congruence|by rewrite He].
Qed.

Lemma live_origin (evs : list Event) (name n : string) (returns : value) :
  remoteFunctions (run fresh evs) !! name = Some (Live n returns) ->
  n = name ∧ name ≠ "__proto__"
  ∧ ∃ args, EvReceive (MPublish name args returns) ∈ evs.
Proof.
  induction evs as [|ev evs IH] using rev_ind.
  - cbn [run foldl remoteFunctions fresh]. by rewrite lookup_empty.
  - rewrite run_snoc. intros Hrf.
    destruct (step_remoteFunctions (run fresh evs) ev name)
      as [Heq|[(Hnone & args & returns' & -> & Heq)|(_ & Heq)]].
    + rewrite Heq in Hrf. destruct (IH Hrf) as (? & ? & args & ?).
      split; [done|]. split; [done|].
      exists args. apply elem_of_app. by left.
    + assert (Hproto : name ≠ "__proto__").
      { intros ->. revert Heq. cbn [step]. unfold receive.
        destruct (remoteFunctions (run fresh evs) !! "hasOwnProperty").
        - unfold invoke_remote. case_match; engine_simpl;
            [|unfold settle_held]; by rewrite Hnone.
        - rewrite Hnone. cbn. engine_simpl. by rewrite Hnone. }
      rewrite Heq in Hrf. inversion Hrf; subst. split; [done|].
      split; [done|]. exists args. apply elem_of_app. right. by left.
    + rewrite Heq in Hrf.
      by destruct (remoteFunctions (run fresh evs) !! name).
Qed.

(** X8.  The first [publish] message for a name wins: on a channel that
    has no remote function named [hasOwnProperty], a later one for the
    same name changes nothing.  In every case the return type recorded
    for a name never changes: a remote function is replaced only by the
    close handler, and the one it installs stays for good, so that the
    proxy does not return a working function for the name again, whatever
    the peer publishes.  Every working remote function is filed under its
    own name, which is not [__proto__], and comes from a received
    [publish] message with its return type. *)
Theorem first_publish_wins :
  (∀ e name rf args returns,
     remoteFunctions e !! "hasOwnProperty" = None ->
     remoteFunctions e !! name = Some rf ->
     receive (MPublish name args returns) e = e)
  ∧ (∀ e evs name returns,
       remoteFunctions e !! name = Some (Live name returns) ->
       remoteFunctions (run e evs) !! name = Some (Live name returns)
       ∨ remoteFunctions (run e evs) !! name = Some Inert)
  ∧ (∀ e evs name,
       remoteFunctions e !! name = Some Inert ->
       remoteFunctions (run e evs) !! name = Some Inert)
  ∧ (∀ evs name n returns,
       remoteFunctions (run fresh evs) !! name = Some (Live n returns) ->
       n = name ∧ name ≠ "__proto__"
       ∧ ∃ args, EvReceive (MPublish name args returns) ∈ evs).
Proof.
  split; [|split; [|split]].
  - intros e name rf args returns Hfree Hrf. unfold receive.
    by rewrite Hfree, Hrf.
  - intros e evs name returns Hrf. apply run_keeps_live_or_inert. by left.
  - intros e evs name. apply run_keeps_inert.
  - apply live_origin.
Qed.

End Handles.

Section Invocations.

(** An array that validates against an array of types has their number
    of elements. *)
Lemma valid_arguments_arity (args : value) (argstype : list value) :
  validate args (VArr argstype) = Normal true ->
  ∃ vs, args = VArr vs ∧ length vs = length argstype.
Proof.
  destruct args as [| |b|n|s|vs|props]; try discriminate. cbn [validate].
  destruct (Nat.eqb_spec (length argstype) (length vs)); [|discriminate].
  eauto.
Qed.

Lemma step_invoked (e : Engine) (ev : Event) :
  invoked (step e ev) = invoked e
  ∨ ∃ nonce name args lfd,
      ev = EvReceive (MCall nonce name args)
      ∧ published e !! name = Some lfd
      ∧ validate args (VArr (lfd_args lfd)) = Normal true
      ∧ invoked (step e ev)
        = invoked e ++ [{| inv_name := name; inv_nonce := nonce;
                           inv_args := args |}]
      ∧ running (step e ev) = running e ++ [nonce].
Proof.
  step_leaves ev; auto.
  - right. eexists _, _, _, _. eauto.
  - left. apply close_invoked.
Qed.

Lemma elem_of_remove_first (n x : Z) (l : list Z) :
  x ∈ remove_first n l -> x ∈ l.
Proof.
  induction l as [|y l IH]; simpl; [done|].
  destruct (Z.eqb y n).
  - intros Hx. by right.
  - intros [->|Hx]%elem_of_cons; [by left|]. right. auto.
Qed.

(** The local functions that are running were started. *)
Lemma step_running (e : Engine) (ev : Event) (n : Z) :
  n ∈ running (step e ev) ->
  n ∈ running e ∨ ∃ i, i ∈ invoked (step e ev) ∧ inv_nonce i = n.
Proof.
  step_leaves ev; intros Hn; auto;
    try (left; by eapply elem_of_remove_first).
  - apply elem_of_app in Hn as [Hn|Hn]; [by left|].
    apply list_elem_of_singleton in Hn. subst. right. eexists. split.
    + apply elem_of_app. right. by left.
    + done.
  - left. by rewrite <- close_running.
Qed.

Lemma invocations_accounted_run (evs : list Event) :
  invocations_accounted (run fresh evs) evs.
Proof.
  induction evs as [|ev evs IH] using rev_ind.
  - split; [|split]; cbn [run foldl invoked running wire fresh];
      intros ? ?; try intros ?; by match goal with H : _ ∈ [] |- _ =>
                                       inversion H end.
  - rewrite run_snoc. destruct IH as (Hinv & Hrun & Hres).
    assert (Hinv' : ∀ i, i ∈ invoked (step (run fresh evs) ev) ->
              EvReceive (MCall (inv_nonce i) (inv_name i) (inv_args i))
                ∈ evs ++ [ev]
              ∧ ∃ lfd, published (step (run fresh evs) ev) !! inv_name i
                       = Some lfd
                       ∧ validate (inv_args i) (VArr (lfd_args lfd))
                         = Normal true).
    { assert (Hold : ∀ i, i ∈ invoked (run fresh evs) ->
                EvReceive (MCall (inv_nonce i) (inv_name i) (inv_args i))
                  ∈ evs ++ [ev]
                ∧ ∃ lfd, published (step (run fresh evs) ev) !! inv_name i
                         = Some lfd
                         ∧ validate (inv_args i) (VArr (lfd_args lfd))
                           = Normal true).
      { intros i Hi. destruct (Hinv i Hi) as (Hev & lfd & Hp & Hv).
        split; [apply elem_of_app; by left|].
        exists lfd. split; [by apply step_keeps_published|done]. }
      intros i Hi.
      destruct (step_invoked (run fresh evs) ev)
        as [Heq|(nonce & name & args & lfd & -> & Hp & Hv & Heq & _)];
        rewrite Heq in Hi; [auto|].
      apply elem_of_app in Hi as [Hi|Hi]; [auto|].
      apply list_elem_of_singleton in Hi. subst i.
      cbn [inv_nonce inv_name inv_args]. split.
      - apply elem_of_app. right. by left.
      - exists lfd. split; [by apply step_keeps_published|done]. }
    assert (Hmono : ∀ i, i ∈ invoked (run fresh evs) ->
              i ∈ invoked (step (run fresh evs) ev)).
    { intros i Hi. destruct (step_invoked (run fresh evs) ev)
        as [->|(? & ? & ? & ? & _ & _ & _ & -> & _)]; [done|].
      apply elem_of_app. by left. }
    split; [done|]. split.
    + intros n Hn. destruct (step_running _ _ _ Hn) as [Hold|Hnew]; [|done].
      destruct (Hrun n Hold) as (i & Hi & Hni). eauto.
    + intros n v Hin.
      assert (Hold : MResult n v ∈ wire (run fresh evs) ->
                ∃ i, i ∈ invoked (step (run fresh evs) ev) ∧ inv_nonce i = n).
      { intros Hw. destruct (Hres n v Hw) as (i & Hi & Hni). eauto. }
      assert (Hrun' : ∀ n, n ∈ running (run fresh evs) ->
                ∃ i, i ∈ invoked (step (run fresh evs) ev) ∧ inv_nonce i = n).
      { intros m Hm. destruct (Hrun m Hm) as (i & Hi & Hni). eauto. }
      clear Hinv Hinv' Hrun Hres Hmono.
      revert Hin Hold Hrun'. generalize (run fresh evs). intros e.
      step_leaves ev; intros Hin Hold Hrun'; wire_cases Hin; auto;
        try (rewrite close_wire in Hin; by auto).
      all: match goal with H : bool_decide _ = true |- _ =>
             apply bool_decide_eq_true in H; auto end.
Qed.

(** X10.  A local function is started only for a received [call] message
    whose name is published and whose arguments [validate] accepts against
    the published argument types, so with exactly as many arguments as
    declared; and every [result] message the engine has sent carries the
    nonce of such a [call] message. *)
Theorem results_answer_valid_calls (evs : list Event) :
  (∀ i, i ∈ invoked (run fresh evs) ->
     EvReceive (MCall (inv_nonce i) (inv_name i) (inv_args i)) ∈ evs
     ∧ ∃ lfd vs,
         published (run fresh evs) !! inv_name i = Some lfd
         ∧ validate (inv_args i) (VArr (lfd_args lfd)) = Normal true
         ∧ inv_args i = VArr vs ∧ length vs = length (lfd_args lfd))
  ∧ (∀ n v, MResult n v ∈ wire (run fresh evs) ->
       ∃ name args lfd,
         EvReceive (MCall n name args) ∈ evs
         ∧ published (run fresh evs) !! name = Some lfd
         ∧ validate args (VArr (lfd_args lfd)) = Normal true).
Proof.
  destruct (invocations_accounted_run evs) as (Hinv & _ & Hres). split.
  - intros i Hi. destruct (Hinv i Hi) as (Hev & lfd & Hp & Hv).
    split; [done|].
    destruct (valid_arguments_arity _ _ Hv) as (vs & ? & ?).
    by exists lfd, vs.
  - intros n v Hin. destruct (Hres n v Hin) as (i & Hi & <-).
    destruct (Hinv i Hi) as (Hev & lfd & Hp & Hv).
    by exists (inv_name i), (inv_args i), lfd.
Qed.

End Invocations.

Section Reannounce.

(** X11.  On a channel that has published no function named
    [hasOwnProperty], publishing a new name other than [__proto__] sends
    one [publish] message, and an [expect] message for that name makes the
    engine send the very same message again, at any later time.  In an
    execution that stays within the embedding, an [expect] message for a
    name that the published table neither owns nor inherits changes
    nothing. *)
Theorem expect_repeats_announcement (lfd : LocalFunctionDefinition)
    (e : Engine) (evs : list Event) :
  published e !! "hasOwnProperty" = None ->
  published e !! lfd_name lfd = None ->
  lfd_name lfd ≠ "__proto__" ->
  let m := MPublish (lfd_name lfd) (VArr (lfd_args lfd)) (lfd_returns lfd) in
  let e1 := step e (EvPublish lfd) in
  wire e1 = wire e ++ [m]
  ∧ wire (receive (MExpect (lfd_name lfd)) (run e1 evs))
    = wire (run e1 evs) ++ [m]
  ∧ ∀ name, beyond (run e1 evs) = false ->
      published (run e1 evs) !! name = None ->
      inherited name = false ->
      receive (MExpect name) (run e1 evs) = run e1 evs.
Proof.
  intros Hfree Hnew Hproto m e1.
  apply String.eqb_neq in Hproto.
  assert (He1 : e1 = sendFunction lfd
                      (set_published (<[lfd_name lfd := lfd]> (published e)) e)).
  { subst e1. cbn [step]. unfold publishFunction.
    by rewrite Hfree, Hnew, Hproto. }
  assert (Hp : published e1 !! lfd_name lfd = Some lfd).
  { rewrite He1. engine_simpl. apply lookup_insert_eq. }
  split; [|split].
  - by rewrite He1.
  - unfold receive. by rewrite (run_keeps_published evs e1 _ _ Hp).
  - intros name _ Hname Hinh. unfold receive. rewrite Hname.
    unfold inherited in Hinh. apply orb_false_elim in Hinh as [-> ->]. done.
Qed.

End Reannounce.

Section ClosedChannel.

(** X12.  The close handler does not stop the engine from serving the
    peer.  On a channel that has published no function named
    [hasOwnProperty], a valid [call] message received after the close
    still starts the local function.  The result of a function that
    returns is withheld; the exception of a function that throws is still
    reported with an [error] message when the [catch] can print it, and
    nothing is sent when it cannot. *)
Theorem closed_channel_still_serves (e : Engine) (evs : list Event)
    (nonce : Z) (name : string) (args : value)
    (lfd : LocalFunctionDefinition) :
  let e' := run (close e) evs in
  published e' !! "hasOwnProperty" = None ->
  published e' !! name = Some lfd ->
  validate args (VArr (lfd_args lfd)) = Normal true ->
  let e'' := receive (MCall nonce name args) e' in
  open e' = false
  ∧ invoked e'' = invoked e' ++ [{| inv_name := name; inv_nonce := nonce;
                                    inv_args := args |}]
  ∧ wire e'' = wire e'
  ∧ (∀ result, wire (fn_returned nonce result e'') = wire e')
  ∧ (∀ text, wire (fn_threw nonce (Printable text) e'')
             = wire e' ++ [MError nonce ("Exception: " +:+ text)])
  ∧ wire (fn_threw nonce Unprintable e'') = wire e'.
Proof.
  intros e' Hfree Hp Hv e''.
  assert (Hclosed : open e' = false) by apply run_stays_closed, close_open.
  assert (He'' : e'' = invoke {| inv_name := name; inv_nonce := nonce;
                                 inv_args := args |} e').
  { subst e''. unfold receive. by rewrite Hfree, Hp, Hv. }
  assert (Hrun : nonce ∈ running e'').
  { rewrite He''. cbn [running invoke inv_nonce]. apply elem_of_app.
    right. by left. }
  split; [done|]. split; [by rewrite He''|]. split; [by rewrite He''|].
  split; [|split].
  - intros result. rewrite fn_returned_closed; by rewrite He''.
  - intros text. unfold fn_threw. rewrite bool_decide_eq_true_2 by done.
    by rewrite He''.
  - unfold fn_threw. rewrite bool_decide_eq_true_2 by done.
    by rewrite He''.
Qed.


End ClosedChannel.

Section Drain.



End Drain.

Section RoundTrips.






End RoundTrips.

Section InitialPublications.

Lemma publish_all_ok (publish : list LocalFunctionDefinition) (e : Engine) :
  Forall (fun lfd => ordinary_name (lfd_name lfd)) publish ->
  published e !! "hasOwnProperty" = None ->
  NoDup (lfd_name <$> publish) ->
  (∀ lfd, lfd ∈ publish -> published e !! lfd_name lfd = None) ->
  ∃ e', publish_all publish e = Normal e'
        ∧ wire e' = wire e ++ (announcement <$> publish)
        ∧ (∀ lfd, lfd ∈ publish -> published e' !! lfd_name lfd = Some lfd)
        ∧ (∀ name lfd, published e' !! name = Some lfd ->
             published e !! name = Some lfd
             ∨ (lfd ∈ publish ∧ lfd_name lfd = name))
        ∧ open e' = open e ∧ counter e' = counter e
        ∧ remoteFunctions e' = remoteFunctions e ∧ inFlight e' = inFlight e
        ∧ expected e' = expected e ∧ settled e' = settled e
        ∧ beyond e' = beyond e.
Proof.
  revert e. induction publish as [|lfd rest IH]; intros e Hord Hfree Hnd Hnew.
  - exists e. cbn [publish_all fmap list_fmap]. rewrite app_nil_r.
    repeat split; try done.
    + intros lfd Hin. by inversion Hin.
    + auto.
  - apply Forall_cons in Hord as [[Hproto Hhas] Hord].
    cbn [fmap list_fmap] in Hnd. apply NoDup_cons in Hnd as [Hname Hnd].
    cbn [publish_all]. unfold publishFunction at 1.
    apply String.eqb_neq in Hproto.
    rewrite Hfree, (Hnew lfd (list_elem_of_here _ _)), Hproto. cbn [bind].
    destruct (IH (sendFunction lfd
                    (set_published (<[lfd_name lfd := lfd]> (published e)) e)))
      as (e' & Hrun & Hwire & Hin & Hout & Hrest); [done| |done| |].
    { engine_simpl. by rewrite lookup_insert_ne. }
    { intros lfd' Hlfd'. engine_simpl. rewrite lookup_insert_ne.
      - apply Hnew. by right.
      - intros Heq. apply Hname. rewrite Heq. by apply list_elem_of_fmap_2. }
    assert (Hout' : ∀ name lfd', published e' !! name = Some lfd' ->
              published e !! name = Some lfd'
              ∨ (lfd' ∈ lfd :: rest ∧ lfd_name lfd' = name)).
    { intros name lfd' Hp. destruct (Hout _ _ Hp) as [Hfirst|[Hlater ?]].
      - engine_simpl.
        destruct (decide (lfd_name lfd = name)) as [<-|Hne].
        + rewrite lookup_insert_eq in Hfirst. inversion Hfirst; subst.
          right. split; [by left|done].
        + rewrite lookup_insert_ne in Hfirst by done. by left.
      - right. split; [by right|done]. }
    exists e'. split; [exact Hrun|]. engine_simpl. split.
    { rewrite Hwire. cbn [fmap list_fmap]. by rewrite <- app_assoc. }
    split; [|by split].
    intros lfd' [->|Hlfd']%elem_of_cons; [|by apply Hin].
    pose proof (run_keeps_published (map EvPublish rest)
                  (sendFunction lfd
                     (set_published
                        (<[lfd_name lfd := lfd]> (published e)) e))
                  (lfd_name lfd) lfd) as Hkeep.
    rewrite <- (publish_all_run rest _ e' Hrun) in Hkeep.
    apply Hkeep. engine_simpl. apply lookup_insert_eq.
Qed.

Lemma publish_all_needs_distinct (publish : list LocalFunctionDefinition)
    (e e' : Engine) :
  Forall (fun lfd => ordinary_name (lfd_name lfd)) publish ->
  publish_all publish e = Normal e' ->
  NoDup (lfd_name <$> publish)
  ∧ ∀ lfd, lfd ∈ publish -> published e !! lfd_name lfd = None.
Proof.
  revert e. induction publish as [|lfd rest IH]; intros e Hord Hrun.
  - split; [constructor|]. intros lfd Hin. by inversion Hin.
  - apply Forall_cons in Hord as [[Hproto Hhas] Hord].
    cbn [publish_all] in Hrun. unfold publishFunction at 1 in Hrun.
    destruct (published e !! "hasOwnProperty"); [done|].
    destruct (published e !! lfd_name lfd) eqn:Hfirst; [done|].
    apply String.eqb_neq in Hproto. rewrite Hproto in Hrun.
    cbn [bind] in Hrun. destruct (IH _ Hord Hrun) as [Hnd Hnew].
    engine_simpl.
    assert (Hother : ∀ lfd', lfd' ∈ rest -> lfd_name lfd' ≠ lfd_name lfd).
    { intros lfd' Hin Heq. specialize (Hnew lfd' Hin).
      by rewrite Heq, lookup_insert_eq in Hnew. }
    split.
    + cbn [fmap list_fmap]. apply NoDup_cons. split; [|done].
      intros (lfd' & Heq & Hin)%list_elem_of_fmap. by apply (Hother lfd').
    + intros lfd' [->|Hin]%elem_of_cons; [done|].
      specialize (Hnew lfd' Hin). rewrite lookup_insert_ne in Hnew; [done|].
      intros Heq. by apply (Hother lfd').
Qed.

(** X18.  For initial publications none of which is named [__proto__] or
    [hasOwnProperty], [createChannel] succeeds exactly when their names
    are distinct.  It then returns an open channel whose counter is 1,
    that has sent one [publish] message for each definition in the order
    given, whose published table holds these definitions under their
    names and nothing else, and whose other tables are empty.  With a
    repeated name it throws. *)
Theorem createChannel_publishes_distinct_names
    (publish : list LocalFunctionDefinition) :
  Forall (fun lfd => ordinary_name (lfd_name lfd)) publish ->
  (NoDup (lfd_name <$> publish) ->
   ∃ e, createChannel publish = Normal e
        ∧ wire e = announcement <$> publish
        ∧ (∀ name lfd, published e !! name = Some lfd
                       <-> lfd ∈ publish ∧ lfd_name lfd = name)
        ∧ open e = true ∧ counter e = 1
        ∧ remoteFunctions e = ∅ ∧ inFlight e = ∅ ∧ expected e = ∅
        ∧ settled e = [] ∧ beyond e = false)
  ∧ (¬ NoDup (lfd_name <$> publish) -> ∃ ex, createChannel publish = Throw ex).
Proof.
  intros Hord. split.
  - intros Hnd. destruct (publish_all_ok publish fresh Hord eq_refl Hnd)
      as (e & Hrun & Hwire & Hin & Hout & ? & ? & ? & ? & ? & ? & ?).
    { intros lfd _. by cbn [published fresh]. }
    exists e. split; [done|]. split; [done|]. split; [|done].
    intros name lfd. split.
    + intros Hp. by destruct (Hout _ _ Hp) as [Hfresh|Hlfd].
    + intros [Hlfd <-]. by apply Hin.
  - intros Hdup. unfold createChannel.
    destruct (publish_all publish fresh) as [e|ex] eqn:Hrun; [|eauto].
    by destruct (publish_all_needs_distinct _ _ _ Hord Hrun).
Qed.

End InitialPublications.

Section Conservation.

Lemma in_flight_insert (m : gmap Z InFlightRPC) (k : Z) (rpc : InFlightRPC) :
  m !! k = None ->
  omap (fun p => rpc_call (snd p)) (map_to_list (<[k := rpc]> m))
  ≡ₚ option_list (rpc_call rpc)
      ++ omap (fun p => rpc_call (snd p)) (map_to_list m).
Proof.
  intros Hk. rewrite map_to_list_insert by done.
  cbn [omap list_omap snd]. by destruct (rpc_call rpc).
Qed.

Lemma in_flight_delete (m : gmap Z InFlightRPC) (k : Z) (rpc : InFlightRPC) :
  m !! k = Some rpc ->
  omap (fun p => rpc_call (snd p)) (map_to_list m)
  ≡ₚ option_list (rpc_call rpc)
      ++ omap (fun p => rpc_call (snd p)) (map_to_list (delete k m)).
Proof.
  intros Hk. rewrite <- (map_to_list_delete m k rpc) by done.
  cbn [omap list_omap snd]. by destruct (rpc_call rpc).
Qed.

(** The waiting calls, with the entry of one name set apart. *)
Lemma waiting_split (rfs : gmap string RemoteFunction)
    (ex : gmap string (list Waiter)) (name : string) :
  concat (waiting_of rfs <$> map_to_list ex)
  ≡ₚ match ex !! name with
      | Some ws => waiting_of rfs (name, ws)
      | None => []
      end ++ concat (waiting_of rfs <$> map_to_list (delete name ex)).
Proof.
  destruct (ex !! name) as [ws|] eqn:Hname.
  - by rewrite <- (map_to_list_delete ex name ws).
  - by rewrite delete_id.
Qed.

(** The entries of other names do not see the remote function of a
    name. *)
Lemma waiting_others (rfs rfs' : gmap string RemoteFunction)
    (ex : gmap string (list Waiter)) (name : string) :
  (∀ k, k ≠ name -> rfs' !! k = None <-> rfs !! k = None) ->
  concat (waiting_of rfs' <$> map_to_list (delete name ex))
  = concat (waiting_of rfs <$> map_to_list (delete name ex)).
Proof.
  intros Hsame. f_equal. apply list_fmap_ext. intros i [k ws] Hin.
  apply list_elem_of_lookup_2, elem_of_map_to_list in Hin.
  assert (Hk : k ≠ name).
  { intros ->. by rewrite lookup_delete_eq in Hin. }
  unfold waiting_of. cbn [fst snd]. specialize (Hsame k Hk).
  destruct (rfs' !! k), (rfs !! k); try done.
  - by destruct Hsame as [_ Hs]; specialize (Hs eq_refl).
  - by destruct Hsame as [Hs _]; specialize (Hs eq_refl).
Qed.

Lemma waiting_all (rfs rfs' : gmap string RemoteFunction)
    (ex : gmap string (list Waiter)) :
  (∀ k, rfs' !! k = None <-> rfs !! k = None) ->
  concat (waiting_of rfs' <$> map_to_list ex)
  = concat (waiting_of rfs <$> map_to_list ex).
Proof.
  intros Hsame. f_equal. apply list_fmap_ext. intros i [k ws] _.
  unfold waiting_of. cbn [fst snd]. specialize (Hsame k).
  destruct (rfs' !! k), (rfs !! k); try done.
  - by destruct Hsame as [_ Hs]; specialize (Hs eq_refl).
  - by destruct Hsame as [Hs _]; specialize (Hs eq_refl).
Qed.

(** A call to a name without remote function joins the waiting calls. *)
Lemma waiting_enqueue (rfs : gmap string RemoteFunction)
    (ex : gmap string (list Waiter)) (prop : string) (w : Waiter) :
  rfs !! prop = None ->
  concat (waiting_of rfs
            <$> map_to_list (<[prop := default [] (ex !! prop) ++ [w]]> ex))
  ≡ₚ concat (waiting_of rfs <$> map_to_list ex) ++ [w_call w].
Proof.
  intros Hprop.
  rewrite (waiting_split rfs (<[prop := _]> ex) prop), lookup_insert_eq.
  rewrite delete_insert_eq.
  rewrite (waiting_split rfs ex prop).
  unfold waiting_of at 1. cbn [fst snd]. rewrite Hprop, fmap_app.
  destruct (ex !! prop) as [ws|]; cbn [default].
  - unfold waiting_of at 2. cbn [fst snd]. rewrite Hprop. cbn.
    solve_Permutation.
  - cbn. solve_Permutation.
Qed.

(** A [publish] message moves the waiting calls of its name out of the
    waiting calls. *)
Lemma waiting_release (rfs : gmap string RemoteFunction)
    (ex : gmap string (list Waiter)) (name : string) (rf : RemoteFunction) :
  rfs !! name = None ->
  concat (waiting_of rfs <$> map_to_list ex)
  ≡ₚ (w_call <$> default [] (ex !! name))
      ++ concat (waiting_of (<[name := rf]> rfs) <$> map_to_list ex).
Proof.
  intros Hname.
  rewrite (waiting_split rfs ex name).
  rewrite (waiting_split (<[name := rf]> rfs) ex name).
  rewrite (waiting_others rfs (<[name := rf]> rfs) ex name).
  - destruct (ex !! name) as [ws|]; cbn [default]; [|done].
    unfold waiting_of at 1 3. cbn [fst snd].
    by rewrite Hname, lookup_insert_eq.
  - intros k Hk. by rewrite lookup_insert_ne.
Qed.

Lemma closed_failures_calls (m : gmap Z InFlightRPC) (keys : list Z) :
  keys ≡ₚ fst <$> map_to_list m ->
  fst <$> (keys ≫= closed_failure m)
  ≡ₚ omap (fun p => rpc_call (snd p)) (map_to_list m).
Proof.
  intros ->.
  assert (Hall : ∀ l : list (Z * InFlightRPC),
            (∀ p, p ∈ l -> m !! fst p = Some (snd p)) ->
            fst <$> ((fst <$> l) ≫= closed_failure m)
            = omap (fun p => rpc_call (snd p)) l).
  { induction l as [|[k rpc] l IH]; intros Hl; [done|].
    cbn [fmap list_fmap omap list_omap fst snd]. rewrite bind_cons, fmap_app.
    unfold closed_failure at 1.
    pose proof (Hl (k, rpc) (list_elem_of_here _ _)) as Hk.
    cbn [fst snd] in Hk. rewrite Hk.
    rewrite IH by (intros p Hp; apply Hl; by right).
    by destruct (rpc_call rpc). }
  rewrite Hall; [done|]. intros [k rpc] Hp. by apply elem_of_map_to_list.
Qed.

Lemma close_calls_held (e : Engine) : calls_held (close e) ≡ₚ calls_held e.
Proof.
  unfold calls_held, in_flight_calls, waiting_calls.
  rewrite close_settled, close_inFlight, map_to_list_empty, fmap_app.
  rewrite close_remoteFunctions, close_expected, close_microtasks.
  rewrite (waiting_all (remoteFunctions e)).
  - rewrite closed_failures_calls.
    + cbn. solve_Permutation.
    + apply merge_sort_Permutation.
  - intros k. rewrite lookup_fmap. by destruct (remoteFunctions e !! k).
Qed.

Lemma step_calls_held (e : Engine) (ev : Event) :
  is_direct ev = true ->
  beyond (step e ev) = false ->
  inFlight e !! counter e = None ->
  calls_held (step e ev) ≡ₚ calls_held e ++ option_list (call_made e ev).
Proof.
  intros Hdirect. revert Hdirect.
  destruct ev as [lfd|id prop args|id f args
                  |[name args returns|nonce name args|nonce v
                    |nonce message|name]
                  | |nonce result|nonce [text|]|];
    intros Hdirect; try discriminate Hdirect;
    cbn [step call_made option_list];
    unfold publishFunction, call, get, call_function, receive, fn_returned,
      fn_threw, tick, resume, invoke_remote, settle_held;
    engine_simpl; repeat case_match; simplify_eq; engine_simpl;
    intros Hwithin Hfree; try discriminate Hwithin;
    cbn [option_list];
    rewrite ?app_nil_r;
    try apply close_calls_held;
    unfold calls_held, in_flight_calls, waiting_calls; engine_simpl;
    try done.
  all: try match goal with H : microtasks _ = _ |- _ => rewrite H end.
  all: try match goal with
           | H : inFlight ?e0 !! ?n = Some ?r |- _ =>
               rewrite (in_flight_delete (inFlight e0) n r H)
           end.
  all: try rewrite in_flight_insert by done.
  all: try match goal with
           | H : remoteFunctions ?e0 !! ?p = None
             |- context [<[?p := _ ++ [?w]]> (expected ?e0)] =>
               let Hw := fresh in
               pose proof (waiting_enqueue (remoteFunctions e0) (expected e0)
                             p w H) as Hw;
               match goal with
               | Hex : expected e0 !! p = _ |- _ => rewrite Hex in Hw
               end;
               cbn [default app] in Hw; rewrite Hw
           end.
  all: try match goal with
           | H : remoteFunctions ?e0 !! ?p = None
             |- context [<[?p := [?w]]> (expected ?e0)] =>
               let Hw := fresh in
               pose proof (waiting_enqueue (remoteFunctions e0) (expected e0)
                             p w H) as Hw;
               match goal with
               | Hex : expected e0 !! p = _ |- _ => rewrite Hex in Hw
               end;
               cbn [default app] in Hw; rewrite Hw
           end.
  all: try match goal with
           | H : remoteFunctions ?e0 !! ?n = None
             |- context [<[?n := ?rf]> (remoteFunctions ?e0)] =>
               rewrite (waiting_release (remoteFunctions e0) (expected e0)
                          n rf H);
               match goal with
               | Hex : expected e0 !! n = _ |- _ => rewrite Hex
               end;
               cbn [default]
           end.
  all: rewrite ?fmap_app; cbn [fmap list_fmap fst rpc_call option_list];
       try match goal with H : rpc_call _ = _ |- _ => rewrite H end;
       cbn [option_list];
       solve_Permutation.
Qed.

Lemma calls_made_snoc (e : Engine) (evs : list Event) (ev : Event) :
  calls_made e (evs ++ [ev])
  = calls_made e evs ++ option_list (call_made (run e evs) ev).
Proof.
  revert e. induction evs as [|ev' evs IH]; intros e.
  - cbn [app calls_made run foldl]. by rewrite app_nil_r.
  - cbn [app calls_made]. by rewrite IH, run_cons, <- app_assoc.
Qed.

Lemma calls_held_run (evs : list Event) :
  forallb is_direct evs = true ->
  beyond (run fresh evs) = false ->
  calls_held (run fresh evs) ≡ₚ calls_made fresh evs.
Proof.
  induction evs as [|ev evs IH] using rev_ind; intros Hdirect Hwithin.
  - change (run fresh []) with fresh.
    unfold calls_held, in_flight_calls, waiting_calls. engine_simpl.
    by rewrite !map_to_list_empty.
  - rewrite forallb_app in Hdirect. cbn [forallb] in Hdirect.
    apply andb_prop in Hdirect as [Hevs [Hev _]%andb_prop].
    rewrite calls_made_snoc, <- IH by eauto using within_prefix.
    rewrite run_snoc in Hwithin |- *.
    by apply step_calls_held, next_nonce_free.
Qed.

(** X19.  No call is lost and none is counted twice while the application
    calls what the proxy returns at once and keeps no function of the
    proxy for later, in an execution that stays within the embedding: at
    every point of such an execution, the remote
    calls made so far are, each as often as it was made, in exactly one
    of four places: settled, in flight, resumed and about to be sent, or
    waiting for a name without remote function.  So only calls that were
    made are settled, and when the application labels its calls
    distinctly no deferred result is settled twice. *)
Theorem every_call_is_in_one_place (evs : list Event) :
  forallb is_direct evs = true ->
  beyond (run fresh evs) = false ->
  calls_held (run fresh evs) ≡ₚ calls_made fresh evs
  ∧ (∀ id o, (id, o) ∈ settled (run fresh evs) -> id ∈ calls_made fresh evs)
  ∧ (NoDup (calls_made fresh evs) -> NoDup (fst <$> settled (run fresh evs))).
Proof.
  intros Hdirect Hwithin.
  pose proof (calls_held_run evs Hdirect Hwithin) as Hheld.
  split; [done|]. split.
  - intros id o Hin. rewrite <- Hheld. unfold calls_held.
    apply elem_of_app. left. apply list_elem_of_fmap. by exists (id, o).
  - intros Hnd. rewrite <- Hheld in Hnd. unfold calls_held in Hnd.
    by apply NoDup_app in Hnd as (Hnd & _).
Qed.

End Conservation.

Section Examples.

(** A [result] message with [null] for a call whose return type is a
    fixed structure object: [validate] throws, the handler ends there,
    and the call stays in flight for good. *)
Lemma null_result_for_fixed_object_not_settled
    (e : Engine) (nonce : Z) (rpc : InFlightRPC)
    (fields : list (string * Sendable)) :
  inFlight e !! nonce = Some rpc ->
  rpc_returns rpc = descriptor (SFixedObject fields) ->
  has_key "$c" fields = false ->
  receive (MResult nonce VNull) e = e.
Proof.
  intros Hrpc Hret Hc. unfold receive. rewrite Hrpc, Hret.
  cbn [descriptor].
  destruct (has_key "hasOwnProperty"
              (map (fun '(k, F) => (k, descriptor F)) fields)) eqn:Hs.
  - by rewrite validate_shadowed_descriptor.
  - rewrite validate_fixed_object; [|done|].
    + destruct fields as [|[k F] fields]; reflexivity.
    + by rewrite has_key_descriptor_fields.
Qed.

(** [lookup('ann')] is in flight under the nonce 1 and the peer answers
    [null], which is no person. *)
Lemma null_result_leaves_call_in_flight :
  inFlight pending_lookup !! 1
  = Some {| rpc_name := "lookup"; rpc_returns := person;
            rpc_call := Some 5%nat |}
  ∧ validate VNull person = Throw TypeError
  ∧ receive (MResult 1 VNull) pending_lookup = pending_lookup
  ∧ settled pending_lookup = [].
Proof. repeat split; reflexivity. Qed.

(** [greet(null)]: the argument is no person, and the answer is not
    [Invalid Arguments]. *)
Lemma null_argument_answered_with_exception :
  validate (VArr [VNull]) (VArr [person]) = Throw TypeError
  ∧ receive (MCall 1 "greet" (VArr [VNull])) (run fresh [EvPublish greet])
    = send (MError 1 ("Exception: "
                      +:+ TypeError_toString (VArr [VNull]) (VArr [person])))
        (run fresh [EvPublish greet]).
Proof. split; reflexivity. Qed.

(** Once a function named [hasOwnProperty] is published, a [call] message
    gets no answer, whether its name is published or not. *)
Lemma call_not_answered_after_hasOwnProperty :
  let e := run fresh [EvPublish addDefinition;
                      EvPublish hasOwnPropertyDefinition] in
  published e !! "add" = Some addDefinition
  ∧ receive (MCall 1 "add" (VArr [VNum 1; VNum 2])) e = e
  ∧ receive (MCall 2 "sub" (VArr [VNum 1; VNum 2])) e = e.
Proof. repeat split; reflexivity. Qed.

(** Once a function named [hasOwnProperty] is published, [publish] throws
    for a name that is not published, and records and sends nothing. *)
Lemma publish_throws_after_hasOwnProperty :
  let e := run fresh [EvPublish hasOwnPropertyDefinition] in
  published e !! "add" = None
  ∧ publishFunction addDefinition e = Throw TypeError
  ∧ step e (EvPublish addDefinition) = e.
Proof. repeat split; reflexivity. Qed.

(** A definition named [__proto__] can be published twice. *)
Lemma publish_proto_twice_does_not_throw :
  let lfd := {| lfd_name := "__proto__"; lfd_args := [];
                lfd_returns := H.none |} in
  ∃ e1 e2,
    publishFunction lfd fresh = Normal e1
    ∧ publishFunction lfd e1 = Normal e2
    ∧ wire e2 = [MPublish "__proto__" (VArr []) H.none;
                 MPublish "__proto__" (VArr []) H.none]
    ∧ published e2 = ∅.
Proof. intros lfd. eexists _, _. repeat split; reflexivity. Qed.

End Examples.

End Channel.

(** * The theorems at the examples of the test suite

    The exceptions of [validate] are rendered by [terse]. *)

(** The function [add] that the proxy returned while the call [add(3, 5)]
    was in flight is called after the close, and its result arrives. *)
Lemma call_after_close_is_settled_witness :
  get (close (pending_add terse)) "add" = CapRemote Inert
  ∧ settled (receive terse (MResult 2 (VNum 3))
               (call_function (get (pending_add terse) "add") 9%nat
                  [VNum 1; VNum 2] (close (pending_add terse))))
    = [(7%nat, Failed "Connection Closed"); (9%nat, Resolved (VNum 3))].
Proof.
  destruct (call_after_close_is_settled terse (pending_add terse) "add"
              H.number 9%nat [VNum 1; VNum 2] (VNum 3))
    as (_ & Hget & _ & _ & _ & Hres & _); [done|reflexivity|reflexivity|].
  split; [exact Hget|].
  etransitivity; [exact Hres|]. reflexivity.
Defined.



(** An [expect] message for [toString] is answered. *)
Lemma only_published_functions_announced_witness :
  (∃ lfd, published (run terse fresh [EvPublish addDefinition;
                                       EvReceive (MExpect "toString")])
            !! "toString" = Some lfd
          ∧ lfd_name lfd = "toString"
          ∧ VUndefined = VArr (lfd_args lfd) ∧ VUndefined = lfd_returns lfd)
  ∨ (VUndefined = VUndefined ∧ VUndefined = VUndefined
     ∧ ∃ k, is_method k = true ∧ "toString" = method_name k
            ∧ EvReceive (MExpect k)
              ∈ [EvPublish addDefinition; EvReceive (MExpect "toString")]).
Proof.
  apply (only_published_functions_announced terse
           [EvPublish addDefinition; EvReceive (MExpect "toString")]
           "toString" VUndefined VUndefined); [reflexivity|].
  vm_compute. apply list_elem_of_In. right. left. reflexivity.
Defined.

Lemma expect_repeats_announcement_witness :
  wire (run terse fresh [EvPublish addDefinition; EvCall 1%nat "add" [];
                         EvReceive (MExpect "add")])
  = [MPublish "add" (VArr [H.number; H.number]) H.number;
     MPublish "add" (VArr [H.number; H.number]) H.number].
Proof.
  destruct (expect_repeats_announcement terse addDefinition fresh
              [EvCall 1%nat "add" []] eq_refl eq_refl) as (_ & Hre & _);
    [done|].
  change (run terse fresh [EvPublish addDefinition; EvCall 1%nat "add" [];
                           EvReceive (MExpect "add")])
    with (receive terse (MExpect "add")
            (run terse (step terse fresh (EvPublish addDefinition))
               [EvCall 1%nat "add" []])).
  etransitivity; [apply Hre|]. reflexivity.
Defined.

Lemma closed_channel_still_serves_witness :
  wire (fn_threw 5 (Printable "Error: boom")
          (receive terse (MCall 5 "noargs" (VArr []))
             (run terse (close (published_noargs terse)) [])))
  = [MPublish "noargs" (VArr []) H.none;
     MError 5 "Exception: Error: boom"]
  ∧ wire (fn_threw 5 Unprintable
            (receive terse (MCall 5 "noargs" (VArr []))
               (run terse (close (published_noargs terse)) [])))
    = [MPublish "noargs" (VArr []) H.none].
Proof.
  destruct (closed_channel_still_serves terse (published_noargs terse) []
              5 "noargs" (VArr []) noargs eq_refl eq_refl eq_refl)
    as (_ & _ & _ & _ & Hthrew & Hmute).
  split.
  - etransitivity; [apply Hthrew|]. reflexivity.
  - etransitivity; [apply Hmute|]. reflexivity.
Defined.






Lemma createChannel_publishes_distinct_names_witness :
  (∃ e, createChannel [addDefinition; noargs] = Normal e
        ∧ wire e = [MPublish "add" (VArr [H.number; H.number]) H.number;
                    MPublish "noargs" (VArr []) H.none])
  ∧ ∃ ex, createChannel [addDefinition; noargs; addDefinition] = Throw ex.
Proof.
  split.
  - destruct (createChannel_publishes_distinct_names terse [addDefinition; noargs])
      as [Hok _].
    { repeat constructor; discriminate. }
    destruct Hok as (e & He & Hwire & _).
    { refine (bool_decide_unpack _ _); vm_compute; exact I. }
    exists e. split; [exact He|exact Hwire].
  - destruct (createChannel_publishes_distinct_names terse
                [addDefinition; noargs; addDefinition]) as [_ Hdup].
    { repeat constructor; discriminate. }
    apply Hdup. intros Hnd. cbn in Hnd.
    apply NoDup_cons in Hnd as [Hfirst _]. apply Hfirst.
    right. left.
Defined.

(** Two calls made before the publication, one after it and one after the
    close. *)
Lemma every_call_is_in_one_place_witness :
  let evs := [EvCall 1%nat "add" [VNum 1; VNum 2];
              EvCall 2%nat "toString" [];
              EvReceive add_published; EvTick;
              EvCall 3%nat "add" [VNum 3; VNum 4];
              EvReceive (MResult 2 (VNum 7)); EvClose;
              EvCall 4%nat "add" [VNum 5; VNum 6]] in
  calls_made terse fresh evs = [1%nat; 3%nat; 4%nat]
  ∧ calls_held (run terse fresh evs) ≡ₚ [1%nat; 3%nat; 4%nat]
  ∧ NoDup (fst <$> settled (run terse fresh evs)).
Proof.
  intros evs.
  destruct (every_call_is_in_one_place terse evs) as (Hheld & _ & Hnd);
    [reflexivity..|].
  assert (Hmade : calls_made terse fresh evs = [1%nat; 3%nat; 4%nat])
    by reflexivity.
  split; [exact Hmade|]. split.
  - by rewrite <- Hmade.
  - apply Hnd. rewrite Hmade. refine (bool_decide_unpack _ _); vm_compute; exact I.
Defined.
